(** * netstack: the ARP endpoint, the link-address lookup and the packet list

  A shallow embedding of [tcpip/network/arp/arp.go] (and of the intrusive
  packet list that ships in the same file) together with the properties
  its specification states about them.

  - [Go]         : Go values as the code has them (panics, unsigned wrap-around,
                   byte slices and [copy]).
  - [Header]     : what the code uses of package [header] (type [ARP]).
  - [Arp]        : [endpoint], its methods, and [NewLinkAddressLookup].
  - [PacketList] : [icmpPacketList] over a store of [icmpPacketEntry] nodes. *)

From Stdlib Require Import ZArith Lia.
From stdpp Require Import base option list functions gmap strings.

Local Open Scope Z_scope.

(* ===================================================================== *)
(** ** Go values                                                          *)
(* ===================================================================== *)

Module Go.

(** A Go call either returns or panics. *)
Inductive outcome (A : Type) : Type :=
| Done (a : A)
| Panic (msg : string).
Global Arguments Done {A} a.
Global Arguments Panic {A} msg.

Global Instance outcome_ret : MRet outcome := λ A a, Done a.
Global Instance outcome_bind : MBind outcome := λ A B f m,
  match m with
  | Done a => f a
  | Panic msg => Panic msg
  end.

Definition returns {A} (m : outcome A) : Prop := ∃ a, m = Done a.
Definition panics {A} (m : outcome A) : Prop := ∃ msg, m = Panic msg.

(** Unsigned arithmetic wraps. *)
Definition wrap16 (z : Z) : Z := z mod 2 ^ 16.
Definition wrap32 (z : Z) : Z := z mod 2 ^ 32.

(** [[]byte], [string] used as a byte string: a list of bytes. A slice
    expression [a[off : off+len]] of a view is kept as the window it
    denotes, so that writing through it changes the view. The capacity of
    a view is taken to be its length. *)
Abbreviation bytes := (list Z) (only parsing).

Record window : Type := Window { w_off : nat; w_len : nat }.

Definition in_bounds (s : window) (v : bytes) : Prop :=
  (w_off s + w_len s ≤ length v)%nat.

Global Instance in_bounds_dec s v : Decision (in_bounds s v).
Proof. unfold in_bounds. apply _. Defined.

(** [a[off : off+len]] read as a value; slicing past the end panics. *)
Definition slice (s : window) (v : bytes) : outcome bytes :=
  if decide (in_bounds s v)
  then Done (take (w_len s) (drop (w_off s) v))
  else Panic "slice bounds out of range".

(** [copy(a[off : off+len], src)]: the first [min len (length src)] bytes
    of [src] overwrite the view from [off] on. *)
Definition copy (s : window) (src : bytes) (v : bytes) : bytes :=
  let n := Nat.min (w_len s) (length src) in
  take (w_off s) v ++ take n src ++ drop (w_off s + n) v.

Definition disjoint (s t : window) : Prop :=
  (w_off s + w_len s ≤ w_off t ∨ w_off t + w_len t ≤ w_off s)%nat.

Global Instance disjoint_dec s t : Decision (disjoint s t).
Proof. unfold disjoint. apply _. Defined.

End Go.
Export Go.

(* ===================================================================== *)
(** ** Package header: the ARP view                                       *)
(* ===================================================================== *)

Module Header.

Definition ARPOp : Type := Z.

(** What [arp.go] uses of [header.ARP]. The four address accessors return
    slices of the packet, [IsValid], [Op] and [SetOp] read and write it. *)
Class ARP : Type := {
  ARPProtocolNumber : Z;
  ARPSize : nat;
  ARPRequest : ARPOp;
  ARPReply : ARPOp;
  IsValid : bytes → bool;
  Op : bytes → outcome ARPOp;
  SetOp : ARPOp → bytes → outcome bytes;
  HardwareAddressSender : window;
  ProtocolAddressSender : window;
  HardwareAddressTarget : window;
  ProtocolAddressTarget : window
}.

Definition address_fields `{ARP} : list window :=
  [HardwareAddressSender; ProtocolAddressSender;
   HardwareAddressTarget; ProtocolAddressTarget].

(** The frame layout the code relies on: a valid frame holds all of
    [ARPSize] bytes, the address fields lie inside them and do not
    overlap, and the operation code is stored apart from the addresses. *)
Class ARPLayout (H : ARP) : Prop := {
  request_not_reply : ARPRequest ≠ ARPReply;
  valid_size v : IsValid v = true → (ARPSize ≤ length v)%nat;
  field_fits s : s ∈ address_fields → (w_off s + w_len s ≤ ARPSize)%nat;
  hw_sender_proto_sender : disjoint HardwareAddressSender ProtocolAddressSender;
  hw_sender_hw_target : disjoint HardwareAddressSender HardwareAddressTarget;
  hw_sender_proto_target : disjoint HardwareAddressSender ProtocolAddressTarget;
  proto_sender_hw_target : disjoint ProtocolAddressSender HardwareAddressTarget;
  proto_sender_proto_target : disjoint ProtocolAddressSender ProtocolAddressTarget;
  proto_lengths : w_len ProtocolAddressSender = w_len ProtocolAddressTarget;
  reply_uint16 : 0 ≤ ARPReply < 2 ^ 16;
  Op_returns v : (ARPSize ≤ length v)%nat → returns (Op v);
  SetOp_returns o v :
    0 ≤ o < 2 ^ 16 → (ARPSize ≤ length v)%nat →
    ∃ v', SetOp o v = Done v' ∧ length v' = length v ∧ Op v' = Done o ∧
          ∀ s, s ∈ address_fields → slice s v' = slice s v;
  Op_copy s src v :
    s ∈ address_fields → in_bounds s v → Op (copy s src v) = Op v
}.

(** Modelled from the spec: package [header] is not part of the sources at
    hand. The specification names the fields of the frame in wire order
    (operation code, sender hardware address, sender protocol address,
    target hardware address, target protocol address) and gives 6 and 4
    bytes as the sizes for IPv4 over Ethernet; this instance is that frame
    as RFC 826 lays it out, with the fixed 8-byte prefix in front (hardware
    type 1, protocol type 0x0800, the two sizes, and the big-endian
    operation code, 1 for Request and 2 for Reply). The properties of
    [HandlePacket] and of the handler are proved for every layout that
    satisfies [ARPLayout]; this one serves to run the code on concrete
    frames. *)
Definition index (i : nat) (v : bytes) : outcome Z :=
  match v !! i with
  | Some b => Done b
  | None => Panic "index out of range"
  end.

Definition be16 (hi lo : Z) : Z := Z.lor (Z.shiftl hi 8) lo.

Definition uint8 (z : Z) : Z := z mod 2 ^ 8.

Definition eth_IsValid (v : bytes) : bool :=
  match v with
  | h0 :: h1 :: p0 :: p1 :: hs :: ps :: _ =>
      bool_decide (28 ≤ length v)%nat
      && bool_decide (be16 h0 h1 = 1)
      && bool_decide (be16 p0 p1 = 0x0800)
      && bool_decide (hs = 6)
      && bool_decide (ps = 4)
  | _ => false
  end.

Definition eth_Op (v : bytes) : outcome ARPOp :=
  hi ← index 6 v; lo ← index 7 v; Done (be16 hi lo).

Definition eth_SetOp (op : ARPOp) (v : bytes) : outcome bytes :=
  if decide (7 < length v)%nat
  then Done (<[7%nat := uint8 op]> (<[6%nat := uint8 (Z.shiftr op 8)]> v))
  else Panic "index out of range".

Definition EthernetIPv4 : ARP := {|
  ARPProtocolNumber := 0x0806;
  ARPSize := 2 + 2 + 1 + 1 + 2 + 2 * 6 + 2 * 4;
  ARPRequest := 1;
  ARPReply := 2;
  IsValid := eth_IsValid;
  Op := eth_Op;
  SetOp := eth_SetOp;
  HardwareAddressSender := Window 8 6;
  ProtocolAddressSender := Window 14 4;
  HardwareAddressTarget := Window 18 6;
  ProtocolAddressTarget := Window 24 4
|}.

End Header.
Export Header.

(* ===================================================================== *)
(** ** Package arp                                                        *)
(* ===================================================================== *)

Module Arp.

Abbreviation NICID := Z (only parsing).
Abbreviation Address := bytes (only parsing).
Abbreviation LinkAddress := bytes (only parsing).
Abbreviation chan := nat (only parsing).

(** [stack.Route], as far as the code reads it. *)
Record Route : Type := { LocalLinkAddress : LinkAddress }.

(** [buffer.Prependable]: the room reserved in front of a payload. *)
Record Prependable : Type := NewPrependable { headroom : Z }.

(** One call of the link endpoint's [WritePacket]. *)
Record Packet : Type := {
  pk_route : Route;
  pk_hdr : Prependable;
  pk_payload : bytes;
  pk_protocol : Z
}.

(** [stack.LinkEndpoint]: an opaque collaborator that reports its MTU
    (uint32) and header length (uint16) and sends packets. *)
Record LinkEndpoint : Type := {
  link_MTU : Z;
  link_MaxHeaderLength : Z
}.

(** [*stack.Stack]: the registry of local addresses. [CheckLocalAddress]
    answers with the interface owning the address, 0 for none. *)
Record Stack : Type := {
  CheckLocalAddress : NICID → Address → NICID
}.

Inductive error : Type :=
| ErrTimeout
| Errorf (msg : string).

(** Lines written by [fmt.Printf]. *)
Inductive Printed : Type :=
| PrintAdding (hw : bytes) (addr : Address)
| PrintTodoRequest (addr : Address).

(** Everything the code changes outside its arguments: the packets handed
    to the link endpoint (oldest first), the stack's link-address cache,
    the waiter registry [wait] of [NewLinkAddressLookup], the
    channels ([make] hands out [nextChan]; [receiving] are the channels a
    goroutine is blocked receiving on, [handoff] the values sent to them
    and not yet picked up), the clock in nanoseconds, and standard
    output. *)
Record World : Type := {
  sent : list Packet;
  linkAddrCache : gmap (Z * bytes) bytes;
  wait : gmap nat bytes;
  nextChan : nat;
  receiving : gset nat;
  handoff : gmap nat bytes;
  clock : Z;
  stdout : list Printed
}.

Definition world0 : World := {|
  sent := []; linkAddrCache := ∅; wait := ∅; nextChan := 0%nat;
  receiving := ∅; handoff := ∅; clock := 0; stdout := []
|}.

Definition with_sent (f : list Packet → list Packet) (w : World) : World :=
  {| sent := f (sent w); linkAddrCache := linkAddrCache w; wait := wait w;
     nextChan := nextChan w; receiving := receiving w; handoff := handoff w;
     clock := clock w; stdout := stdout w |}.

Definition with_linkAddrCache (f : gmap (Z * bytes) bytes → gmap (Z * bytes) bytes)
    (w : World) : World :=
  {| sent := sent w; linkAddrCache := f (linkAddrCache w); wait := wait w;
     nextChan := nextChan w; receiving := receiving w; handoff := handoff w;
     clock := clock w; stdout := stdout w |}.

Definition with_wait (f : gmap nat bytes → gmap nat bytes) (w : World) : World :=
  {| sent := sent w; linkAddrCache := linkAddrCache w; wait := f (wait w);
     nextChan := nextChan w; receiving := receiving w; handoff := handoff w;
     clock := clock w; stdout := stdout w |}.

Definition with_nextChan (f : nat → nat) (w : World) : World :=
  {| sent := sent w; linkAddrCache := linkAddrCache w; wait := wait w;
     nextChan := f (nextChan w); receiving := receiving w; handoff := handoff w;
     clock := clock w; stdout := stdout w |}.

Definition with_receiving (f : gset nat → gset nat) (w : World) : World :=
  {| sent := sent w; linkAddrCache := linkAddrCache w; wait := wait w;
     nextChan := nextChan w; receiving := f (receiving w); handoff := handoff w;
     clock := clock w; stdout := stdout w |}.

Definition with_handoff (f : gmap nat bytes → gmap nat bytes) (w : World) : World :=
  {| sent := sent w; linkAddrCache := linkAddrCache w; wait := wait w;
     nextChan := nextChan w; receiving := receiving w; handoff := f (handoff w);
     clock := clock w; stdout := stdout w |}.

Definition with_clock (f : Z → Z) (w : World) : World :=
  {| sent := sent w; linkAddrCache := linkAddrCache w; wait := wait w;
     nextChan := nextChan w; receiving := receiving w; handoff := handoff w;
     clock := f (clock w); stdout := stdout w |}.

Definition Printf (line : Printed) (w : World) : World :=
  {| sent := sent w; linkAddrCache := linkAddrCache w; wait := wait w;
     nextChan := nextChan w; receiving := receiving w; handoff := handoff w;
     clock := clock w; stdout := stdout w ++ [line] |}.

(** [linkEP.WritePacket(r, &hdr, payload, protocol)]. *)
Definition link_WritePacket (r : Route) (hdr : Prependable) (payload : bytes)
    (protocol : Z) (w : World) : World :=
  with_sent (λ ps, ps ++ [{| pk_route := r; pk_hdr := hdr;
                             pk_payload := payload; pk_protocol := protocol |}]) w.

(** Modelled from the spec: [Stack.AddLinkAddrCache] is not part of the
    sources at hand. The cache holds at most one entry per (interface,
    protocol address) pair and the most recently observed mapping wins. *)
Definition AddLinkAddrCache (nic : NICID) (addr : Address) (linkAddr : LinkAddress)
    (w : World) : World :=
  with_linkAddrCache (λ c, <[(nic, addr) := linkAddr]> c) w.

(** The type of [endpoint.handler] and of the function given to
    [SetNetworkProtocolHandler]: a function of a route and a view to bool. *)
Definition Handler : Type := Route → bytes → World → outcome (bool * World).

Record endpoint : Type := {
  nicid : NICID;
  linkEP : LinkEndpoint;
  handler : option Handler;
  stack : Stack
}.

(** [stack.NetworkEndpointConfig], as far as [NewEndpoint] reads it. *)
Record NetworkEndpointConfig : Type := {
  cfg_NICID : NICID;
  cfg_Sender : LinkEndpoint;
  cfg_DefaultHandler : option Handler;
  cfg_Stack : Stack
}.

Section WithHeader.
Context `{H : ARP}.

Definition ProtocolName : string := "arp".
Definition ProtocolNumber : Z := ARPProtocolNumber.

(** [func (e *endpoint) MaxHeaderLength() uint16] *)
Definition MaxHeaderLength (e : endpoint) : Z :=
  wrap16 (link_MaxHeaderLength (linkEP e) + Z.of_nat ARPSize).

(** [func (e *endpoint) MTU() uint32] *)
Definition MTU (e : endpoint) : Z :=
  let lmtu := link_MTU (linkEP e) in
  wrap32 (lmtu - wrap32 (MaxHeaderLength e)).

(** [func (e *endpoint) WritePacket(r, hdr, payload, protocol) error] *)
Definition WritePacket (e : endpoint) (r : Route) (hdr : Prependable)
    (payload : bytes) (protocol : Z) (w : World) : outcome (option error * World) :=
  Panic "arp.WritePacket TODO".

(** [func (e *endpoint) HandlePacket(r *stack.Route, v buffer.View)].
    The view is changed in place; the result carries it as the caller
    finds it afterwards. *)
Definition HandlePacket (e : endpoint) (r : Route) (v : bytes) (w : World)
    : outcome (bytes * World) :=
  if negb (IsValid v) then Done (v, w) else
  localAddr ← slice ProtocolAddressTarget v;
  let nic := CheckLocalAddress (stack e) 0 localAddr in
  if decide (nic = 0) then Done (v, w) else
  op ← Op v;
  '(v, w) ← (if decide (op = ARPRequest) then
               v ← SetOp ARPReply v;
               _ ← slice HardwareAddressSender v;
               let v := copy HardwareAddressSender (LocalLinkAddress r) v in
               _ ← slice ProtocolAddressSender v;
               target ← slice ProtocolAddressTarget v;
               let v := copy ProtocolAddressSender target v in
               let hdr := NewPrependable (link_MaxHeaderLength (linkEP e)) in
               Done (v, link_WritePacket r hdr v ProtocolNumber w)
             else Done (v, w));
  match handler e with
  | Some f => '(_, w) ← f r v w; Done (v, w)
  | None => Done (v, w)
  end.

(** [func (p *protocol) Number()], [MinimumPacketSize()] and
    [ParseAddresses(v)]: the stack hands a packet to the protocol only
    when it has at least [MinimumPacketSize] bytes. *)
Definition Number : Z := ProtocolNumber.
Definition MinimumPacketSize : nat := ARPSize.
Definition ParseAddresses (v : list Z) : list Z * list Z := ([], []).

(** [func (p *protocol) NewEndpoint(cfg stack.NetworkEndpointConfig)] *)
Definition NewEndpoint (cfg : NetworkEndpointConfig) : endpoint * option error :=
  ({| nicid := cfg_NICID cfg; linkEP := cfg_Sender cfg;
      handler := cfg_DefaultHandler cfg; stack := cfg_Stack cfg |}, None).

(** [select { case ch <- linkAddr: default: }] on an unbuffered channel:
    the value is handed over when a receiver is blocked on [ch], and
    dropped otherwise. *)
Definition try_send (ch : chan) (linkAddr : LinkAddress) (w : World) : World :=
  if decide (ch ∈ receiving w)
  then with_handoff (λ h, <[ch := linkAddr]> h)
         (with_receiving (λ s, s ∖ {[ch]}) w)
  else w.

(** The body of [for ch, chAddr := range wait]. *)
Definition notify (addr : Address) (linkAddr : LinkAddress)
    (entry : nat * bytes) (w : World) : World :=
  let '(ch, chAddr) := entry in
  if decide (addr = chAddr)
  then with_wait (λ m, delete ch m) (try_send ch linkAddr w)
  else w.

(** The function [NewLinkAddressLookup] installs with
    [s.SetNetworkProtocolHandler(ProtocolNumber, ...)]; the mutex makes
    the loop over [wait] one step. *)
Definition lookupHandler (s : Stack) : Handler := λ r v w,
  localAddr ← slice ProtocolAddressTarget v;
  let nic := CheckLocalAddress s 0 localAddr in
  hw ← slice HardwareAddressSender v;
  pa ← slice ProtocolAddressSender v;
  let w := Printf (PrintAdding hw pa) w in
  addr ← slice ProtocolAddressSender v;
  linkAddr ← slice HardwareAddressSender v;
  let w := AddLinkAddrCache nic addr linkAddr w in
  op ← Op v;
  if decide (op ≠ ARPReply) then Done (false, w) else
  Done (false, foldr (notify addr linkAddr) w (map_to_list (wait w))).

(** [time.Second] and the wait of the lookup, in nanoseconds. *)
Definition Second : Z := 1000000000.
Definition arpWait : Z := 15 * Second.

(** A call of the lookup function that has entered its [select]. *)
Record Pending : Type := {
  pd_addr : Address;
  pd_chan : nat;
  pd_deadline : Z
}.

(** The lookup function up to its [select]: [make(chan)], the [Printf],
    and the goroutine blocks on [<-ch] with the timer started. *)
Definition resolve_enter (addr : Address) (w : World) : Pending * World :=
  let ch := nextChan w in
  let w := with_nextChan S w in
  let w := Printf (PrintTodoRequest addr) w in
  ({| pd_addr := addr; pd_chan := ch; pd_deadline := clock w + arpWait |},
   with_receiving (λ s, {[ch]} ∪ s) w).

(** The [select] fires: with the value handed over on [ch] if there is one,
    else with the timer, once the clock has reached the deadline. *)
Definition resolve_leave (p : Pending) (w : World)
    : (LinkAddress * option error) * World :=
  match handoff w !! pd_chan p with
  | Some res => ((res, None), with_handoff (λ h, delete (pd_chan p) h) w)
  | None =>
      let w := with_clock (λ t, Z.max t (pd_deadline p)) w in
      let w := with_receiving (λ s, s ∖ {[pd_chan p]}) w in
      let w := with_wait (λ m, delete (pd_chan p) m) w in
      (([], Some ErrTimeout), w)
  end.

(** A lookup during which the frames [frames] reach the handler. *)
Definition resolve (hd : Handler) (frames : list (Route * bytes)) (addr : Address)
    (w : World) : outcome ((LinkAddress * option error) * World) :=
  let '(p, w) := resolve_enter addr w in
  w ← foldl (λ acc f, w ← acc; '(_, w) ← hd f.1 f.2 w; Done w) (Done w) frames;
  Done (resolve_leave p w).

(** [func NewLinkAddressLookup(s, nicID, localLinkAddr)]: a fresh, empty
    [wait], the handler, and the lookup function (given here by
    [resolve_enter], [resolve_leave] and [resolve]). *)
Definition NewLinkAddressLookup (s : Stack) (nicID : NICID)
    (localLinkAddr : LinkAddress) (w : World) : Handler * World :=
  (lookupHandler s, with_wait (λ _, ∅) w).

End WithHeader.

(** The world once the handler has printed and recorded the mapping of a
    frame with target protocol address [tpa], sender protocol address
    [spa] and sender hardware address [sha]. *)
Definition learnt (s : Stack) (tpa spa sha : list Z) (w : World) : World :=
  AddLinkAddrCache (CheckLocalAddress s 0 tpa) spa sha
    (Printf (PrintAdding sha spa) w).

End Arp.
Export Arp.

(* ===================================================================== *)
(** ** The packet list                                                    *)
(* ===================================================================== *)

Module PacketList.

(** Pointers to packets and to lists are addresses; a pointer that may be
    nil is an [option]. Receivers and the packets handed to a method are
    never nil. *)
Abbreviation ptr := nat (only parsing).

(** [type icmpPacketEntry struct { next, prev *icmpPacket }] *)
Record icmpPacketEntry : Type := { next : option nat; prev : option nat }.

(** [type icmpPacketList struct { head, tail *icmpPacket }] *)
Record icmpPacketList : Type := { head : option nat; tail : option nat }.

(** The zero values: an entry that is not linked, an empty list. *)
Global Instance icmpPacketEntry_zero : Inhabited icmpPacketEntry :=
  populate {| next := None; prev := None |}.
Global Instance icmpPacketList_zero : Inhabited icmpPacketList :=
  populate {| head := None; tail := None |}.

(** The store: the entry embedded in each packet and each list header, by
    address. What was never written holds its zero value. *)
Record Memory : Type := {
  packets : gmap nat icmpPacketEntry;
  lists : gmap nat icmpPacketList
}.

Definition entry (e : ptr) (m : Memory) : icmpPacketEntry := packets m !!! e.
Definition list_at (l : ptr) (m : Memory) : icmpPacketList := lists m !!! l.

(** [func (e *icmpPacketEntry) Next() *icmpPacket] and its siblings. *)
Definition Next (e : ptr) (m : Memory) : option nat := next (entry e m).
Definition Prev (e : ptr) (m : Memory) : option nat := prev (entry e m).

Definition SetNext (e : ptr) (x : option nat) (m : Memory) : Memory :=
  {| packets := <[e := {| next := x; prev := prev (entry e m) |}]> (packets m);
     lists := lists m |}.

Definition SetPrev (e : ptr) (x : option nat) (m : Memory) : Memory :=
  {| packets := <[e := {| next := next (entry e m); prev := x |}]> (packets m);
     lists := lists m |}.

(** [l.head = x] and [l.tail = x]. *)
Definition set_head (l : ptr) (x : option nat) (m : Memory) : Memory :=
  {| packets := packets m;
     lists := <[l := {| head := x; tail := tail (list_at l m) |}]> (lists m) |}.

Definition set_tail (l : ptr) (x : option nat) (m : Memory) : Memory :=
  {| packets := packets m;
     lists := <[l := {| head := head (list_at l m); tail := x |}]> (lists m) |}.

(** [func (l *icmpPacketList) Reset()] *)
Definition Reset (l : ptr) (m : Memory) : Memory :=
  let m := set_head l None m in
  set_tail l None m.

(** [func (l *icmpPacketList) Empty() bool] *)
Definition Empty (l : ptr) (m : Memory) : bool :=
  bool_decide (head (list_at l m) = None).

(** [func (l *icmpPacketList) Front() *icmpPacket] *)
Definition Front (l : ptr) (m : Memory) : option nat := head (list_at l m).

(** [func (l *icmpPacketList) Back() *icmpPacket] *)
Definition Back (l : ptr) (m : Memory) : option nat := tail (list_at l m).

(** [func (l *icmpPacketList) PushFront(e *icmpPacket)] *)
Definition PushFront (l : ptr) (e : ptr) (m : Memory) : Memory :=
  let m := SetNext e (head (list_at l m)) m in
  let m := SetPrev e None m in
  let m := match head (list_at l m) with
           | Some h => SetPrev h (Some e) m
           | None => set_tail l (Some e) m
           end in
  set_head l (Some e) m.

(** [func (l *icmpPacketList) PushBack(e *icmpPacket)] *)
Definition PushBack (l : ptr) (e : ptr) (m : Memory) : Memory :=
  let m := SetNext e None m in
  let m := SetPrev e (tail (list_at l m)) m in
  let m := match tail (list_at l m) with
           | Some t => SetNext t (Some e) m
           | None => set_head l (Some e) m
           end in
  set_tail l (Some e) m.

(** [func (l *icmpPacketList) PushBackList(m *icmpPacketList)]; the list
    given is [o] here. [l.tail.SetNext] dereferences [l.tail]. *)
Definition PushBackList (l : ptr) (o : ptr) (m : Memory) : outcome Memory :=
  m ← (match head (list_at l m) with
       | None =>
           let m := set_head l (head (list_at o m)) m in
           Done (set_tail l (tail (list_at o m)) m)
       | Some _ =>
           match head (list_at o m) with
           | Some oh =>
               match tail (list_at l m) with
               | Some lt =>
                   let m := SetNext lt (Some oh) m in
                   let m := SetPrev oh (tail (list_at l m)) m in
                   Done (set_tail l (tail (list_at o m)) m)
               | None => Panic "invalid memory address or nil pointer dereference"
               end
           | None => Done m
           end
       end);
  let m := set_head o None m in
  Done (set_tail o None m).

(** [func (l *icmpPacketList) InsertAfter(b, e *icmpPacket)] *)
Definition InsertAfter (l : ptr) (b e : ptr) (m : Memory) : Memory :=
  let a := Next b m in
  let m := SetNext e a m in
  let m := SetPrev e (Some b) m in
  let m := SetNext b (Some e) m in
  match a with
  | Some a => SetPrev a (Some e) m
  | None => set_tail l (Some e) m
  end.

(** [func (l *icmpPacketList) InsertBefore(a, e *icmpPacket)] *)
Definition InsertBefore (l : ptr) (a e : ptr) (m : Memory) : Memory :=
  let b := Prev a m in
  let m := SetNext e (Some a) m in
  let m := SetPrev e b m in
  let m := SetPrev a (Some e) m in
  match b with
  | Some b => SetNext b (Some e) m
  | None => set_head l (Some e) m
  end.

(** [func (l *icmpPacketList) Remove(e *icmpPacket)] *)
Definition Remove (l : ptr) (e : ptr) (m : Memory) : Memory :=
  let prev := Prev e m in
  let next := Next e m in
  let m := match prev with
           | Some p => SetNext p next m
           | None => set_head l next m
           end in
  match next with
  | Some n => SetPrev n prev m
  | None => set_tail l prev m
  end.

(** The loop of the documentation,
    [for e := l.Front(); e != nil; e = e.Next()], and the same loop
    backwards: the packets visited from [p] on, in the order of the visit;
    [None] when [fuel] steps do not reach nil. *)
Fixpoint walk (step : nat → Memory → option nat) (m : Memory) (fuel : nat)
    (p : option nat) : option (list nat) :=
  match p with
  | None => Some []
  | Some x =>
      match fuel with
      | O => None
      | S fuel => cons x <$> walk step m fuel (step x m)
      end
  end.

Definition forward (l : ptr) (fuel : nat) (m : Memory) : option (list nat) :=
  walk Next m fuel (Front l m).

Definition backward (l : ptr) (fuel : nat) (m : Memory) : option (list nat) :=
  walk Prev m fuel (Back l m).

(** The packets [xs], in this order, are linked to one another, with
    [before] in front of the first and [after] behind the last. *)
Definition first_or (after : option nat) (xs : list nat) : option nat :=
  match xs with
  | [] => after
  | x :: _ => Some x
  end.

Definition last_or (before : option nat) (xs : list nat) : option nat :=
  match last xs with
  | None => before
  | Some x => Some x
  end.

Fixpoint seg (m : Memory) (before : option nat) (xs : list nat)
    (after : option nat) : Prop :=
  match xs with
  | [] => True
  | x :: rest =>
      Prev x m = before ∧ Next x m = first_or after rest ∧
      seg m (Some x) rest after
  end.

(** List [l] holds exactly the packets [xs], front to back. *)
Definition holds (l : ptr) (xs : list nat) (m : Memory) : Prop :=
  NoDup xs ∧
  head (list_at l m) = first_or None xs ∧
  tail (list_at l m) = last_or None xs ∧
  seg m None xs None.

(** The invariant of a store: [σ] gives the packets of every list, and no
    packet is in two lists. *)
Definition Inv (σ : nat → list nat) (m : Memory) : Prop :=
  (∀ l, holds l (σ l) m) ∧ (∀ l1 l2, l1 ≠ l2 → σ l1 ## σ l2).

(** [e] is in no list. *)
Definition free (σ : nat → list nat) (e : ptr) : Prop := ∀ l, e ∉ σ l.

(** From [m] to [m'] only the headers of the lists [ls] and the links of
    the packets [touched] may have changed. *)
Definition same_outside (ls : list nat) (touched : list nat) (m m' : Memory)
    : Prop :=
  (∀ l, l ∉ ls → head (list_at l m') = head (list_at l m) ∧
                 tail (list_at l m') = tail (list_at l m)) ∧
  (∀ y, y ∉ touched → Next y m' = Next y m ∧ Prev y m' = Prev y m).

(** Following the links from either end of [l] visits [xs] and stops at
    the other end. *)
Definition consistent (l : ptr) (xs : list nat) (m : Memory) : Prop :=
  forward l (length xs) m = Some xs ∧ last xs = Back l m ∧
  backward l (length xs) m = Some (reverse xs) ∧ last (reverse xs) = Front l m.

(** List [l] contains the packets [xs], each once: that is what a walk
    from either end finds. *)
Definition contains (l : ptr) (xs : list nat) (m : Memory) : Prop :=
  NoDup xs ∧ consistent l xs m.

(** The invariant as a walk sees it: every list [l] contains [σ l], and
    no packet is reached from two lists. *)
Definition well_linked (σ : nat → list nat) (m : Memory) : Prop :=
  (∀ l, contains l (σ l) m) ∧ (∀ l1 l2, l1 ≠ l2 → σ l1 ## σ l2).

End PacketList.

(* ===================================================================== *)
(** ** Concrete hosts, frames and stores                                  *)
(* ===================================================================== *)

Module Scenario.

(** The values of the scenario in the specification: the host owns
    192.168.1.1 on interface 1 and is asked for it by 192.168.1.2 at
    aa:bb:cc:dd:ee:ff. *)
Definition host_stack : Stack :=
  {| CheckLocalAddress := λ _ a, if decide (a = [192; 168; 1; 1]) then 1 else 0 |}.

Definition host_link : LinkEndpoint :=
  {| link_MTU := 1500; link_MaxHeaderLength := 14 |}.

Definition host_endpoint : endpoint :=
  {| nicid := 1; linkEP := host_link; handler := None; stack := host_stack |}.

Definition host_route : Route :=
  {| LocalLinkAddress := [0x02; 0x03; 0x04; 0x05; 0x06; 0x07] |}.

Definition request_frame : list Z :=
  [0; 1; 8; 0; 6; 4; 0; 1;
   0xaa; 0xbb; 0xcc; 0xdd; 0xee; 0xff;  192; 168; 1; 2;
   0; 0; 0; 0; 0; 0;  192; 168; 1; 1].

(** A link endpoint whose MTU is below the header length of the endpoint. *)
Definition tiny_link : LinkEndpoint :=
  {| link_MTU := 10; link_MaxHeaderLength := 14 |}.

Definition tiny_endpoint : endpoint :=
  {| nicid := 1; linkEP := tiny_link; handler := None; stack := host_stack |}.

(** The same frame with a hardware type of 0: long enough to hold every
    field, and not a valid ARP frame. *)
Definition malformed_frame : list Z :=
  [0; 0; 8; 0; 6; 4; 0; 1;
   0xaa; 0xbb; 0xcc; 0xdd; 0xee; 0xff;  192; 168; 1; 2;
   0; 0; 0; 0; 0; 0;  192; 168; 1; 1].

(** A Reply of 10.0.0.5 at 0a:0b:0c:0d:0e:0f to the host. *)
Definition reply_frame : list Z :=
  [0; 1; 8; 0; 6; 4; 0; 2;
   0x0a; 0x0b; 0x0c; 0x0d; 0x0e; 0x0f;  10; 0; 0; 5;
   0x02; 0x03; 0x04; 0x05; 0x06; 0x07;  192; 168; 1; 1].

(** The handler and the world of a fresh [NewLinkAddressLookup] on the
    host, for IPv4 over Ethernet, and a lookup of 10.0.0.5 that has
    entered its [select]. *)
Definition host_lookup : Handler * World :=
  NewLinkAddressLookup (H := EthernetIPv4) host_stack 1
    (LocalLinkAddress host_route) world0.

Definition blocked_lookup : Pending * World :=
  resolve_enter [10; 0; 0; 5] host_lookup.2.

(** Lookups one after the other, with no frame arriving during any. *)
Fixpoint resolve_each (hd : Handler) (addrs : list (list Z)) (w : World)
    : outcome (list (list Z * option error) * World) :=
  match addrs with
  | [] => Done ([], w)
  | addr :: rest =>
      '(res, w) ← resolve hd [] addr w;
      '(ress, w) ← resolve_each hd rest w;
      Done (res :: ress, w)
  end.

(** A store with two lists, built from the empty store: list 1 contains
    the packets 10, 11, 12 and list 2 the packets 20, 21. *)
Definition store0 : PacketList.Memory :=
  {| PacketList.packets := ∅; PacketList.lists := ∅ |}.

Definition two_lists : PacketList.Memory :=
  PacketList.PushBack 2 21 (PacketList.PushBack 2 20
    (PacketList.PushBack 1 12 (PacketList.PushBack 1 11
      (PacketList.PushBack 1 10 store0)))).

Definition no_packets : nat → list nat := λ _, [].

Definition two_lists_packets : nat → list nat :=
  <[2%nat := [20; 21]%nat]> (<[1%nat := [10; 11; 12]%nat]> no_packets).

(** The endpoint of the host with the handler of the lookup as its
    secondary handler. *)
Definition learning_endpoint : endpoint :=
  {| nicid := 1; linkEP := host_link;
     handler := Some (lookupHandler (H := EthernetIPv4) host_stack);
     stack := host_stack |}.

(** A world with two lookups under way, as it would be had they entered
    the registry: channel 0 waits for 10.0.0.5 and channel 1 for
    10.0.0.9, and both callers are blocked. *)
Definition waiting_world : World :=
  {| sent := []; linkAddrCache := ∅;
     wait := <[0%nat := [10; 0; 0; 5]]> (<[1%nat := [10; 0; 0; 9]]> ∅);
     nextChan := 2; receiving := {[0%nat; 1%nat]}; handoff := ∅;
     clock := 0; stdout := [] |}.

Definition waiting_call : Pending :=
  {| pd_addr := [10; 0; 0; 5]; pd_chan := 0; pd_deadline := 15000000000 |}.

End Scenario.
Export Scenario.

(* ===================================================================== *)
(** ** Facts about Go values                                              *)
(* ===================================================================== *)

Module GoFacts.

Lemma bind_Done {A B} (f : A → outcome B) (a : A) : (Done a ≫= f) = f a.
Proof. reflexivity. Qed.

Lemma length_copy s src v :
  in_bounds s v → length (copy s src v) = length v.
Proof.
  unfold in_bounds, copy. cbv zeta. intros Hb.
  rewrite !length_app, !length_take, length_drop. lia.
Qed.

(** Byte [i] of a view after a [copy]. *)
Lemma lookup_copy s src v (i : nat) :
  in_bounds s v →
  copy s src v !! i =
    if decide (w_off s ≤ i < w_off s + Nat.min (w_len s) (length src))%nat
    then src !! (i - w_off s)%nat
    else v !! i.
Proof.
  unfold in_bounds, copy. cbv zeta. intros Hb.
  set (n := Nat.min (w_len s) (length src)).
  destruct (decide (i < w_off s)%nat) as [Hlt|Hge].
  - rewrite lookup_app_l by (rewrite length_take; lia).
    rewrite lookup_take_lt by lia. case_decide; [lia|done].
  - rewrite lookup_app_r by (rewrite length_take; lia).
    rewrite length_take, Nat.min_l by lia.
    destruct (decide (i - w_off s < n)%nat) as [Hin|Hout].
    + rewrite lookup_app_l by (rewrite length_take; lia).
      rewrite lookup_take_lt by lia. case_decide; [done|lia].
    + rewrite lookup_app_r by (rewrite length_take; lia).
      rewrite length_take, Nat.min_l by lia.
      rewrite lookup_drop. case_decide; [lia|]. f_equal. lia.
Qed.

Lemma slice_Done s v :
  in_bounds s v → slice s v = Done (take (w_len s) (drop (w_off s) v)).
Proof. intros Hb. unfold slice. by rewrite decide_True. Qed.

Lemma slice_returns_inv s v x : slice s v = Done x → in_bounds s v.
Proof. unfold slice. case_decide; [done|discriminate]. Qed.

Lemma length_slice s v x : slice s v = Done x → length x = w_len s.
Proof.
  unfold slice. case_decide as Hb; [|discriminate]. intros [= <-].
  unfold in_bounds in Hb. rewrite length_take, length_drop. lia.
Qed.

(** Reading back the window that was written. *)
Lemma slice_copy_same s src v :
  in_bounds s v → length src = w_len s → slice s (copy s src v) = Done src.
Proof.
  intros Hb Hlen. rewrite slice_Done by (unfold in_bounds; rewrite length_copy; done).
  f_equal. apply list_eq. intros i.
  destruct (decide (i < w_len s)%nat) as [Hi|Hi].
  - rewrite lookup_take_lt, lookup_drop, lookup_copy by done.
    rewrite Hlen, Nat.min_id. case_decide; [|lia]. f_equal. lia.
  - rewrite lookup_take_ge by lia. symmetry. apply lookup_ge_None. lia.
Qed.

(** A window reads the same in two views that agree inside it. *)
Lemma slice_ext s (v v' : list Z) :
  length v' = length v →
  (∀ j, (w_off s ≤ j < w_off s + w_len s)%nat → v' !! j = v !! j) →
  slice s v' = slice s v.
Proof.
  intros Hlen Hag. unfold slice.
  assert (in_bounds s v' ↔ in_bounds s v) as Hiff
    by (unfold in_bounds; by rewrite Hlen).
  destruct (decide (in_bounds s v)) as [Ht|Ht].
  - rewrite decide_True by (by apply Hiff). f_equal. apply list_eq. intros i.
    destruct (decide (i < w_len s)%nat) as [Hi|Hi].
    + rewrite !lookup_take_lt, !lookup_drop by done. apply Hag. lia.
    + by rewrite !lookup_take_ge by lia.
  - rewrite decide_False; [done|]. intros ?. by apply Ht, Hiff.
Qed.

(** A write through one window leaves a window apart from it as it was. *)
Lemma slice_copy_other s t src v :
  disjoint s t → in_bounds s v → slice t (copy s src v) = slice t v.
Proof.
  intros Hd Hb. apply slice_ext; [by apply length_copy|].
  intros j Hj. rewrite lookup_copy by done.
  unfold disjoint in Hd. case_decide; [lia|done].
Qed.

Lemma wrap32_small z : 0 ≤ z < 2 ^ 32 → wrap32 z = z.
Proof. intros. unfold wrap32. by apply Z.mod_small. Qed.

Lemma wrap16_range z : 0 ≤ wrap16 z < 2 ^ 16.
Proof. unfold wrap16. apply Z.mod_pos_bound. lia. Qed.

End GoFacts.
Export GoFacts.

(* ===================================================================== *)
(** ** The IPv4-over-Ethernet frame has the layout the code relies on     *)
(* ===================================================================== *)

Module HeaderFacts.

Lemma be16_uint8 o : 0 ≤ o < 2 ^ 16 → be16 (uint8 (Z.shiftr o 8)) (uint8 o) = o.
Proof.
  intros Ho. unfold be16, uint8. apply Z.bits_inj'. intros n Hn.
  rewrite Z.lor_spec, Z.shiftl_spec by lia.
  destruct (decide (n < 8)) as [Hlt|Hge].
  - rewrite (Z.testbit_neg_r _ (n - 8)) by lia.
    rewrite Z.mod_pow2_bits_low by lia. done.
  - rewrite (Z.mod_pow2_bits_high o 8 n) by lia. rewrite orb_false_r.
    destruct (decide (n < 16)) as [Hlt|Hge'].
    + rewrite Z.mod_pow2_bits_low by lia. rewrite Z.shiftr_spec by lia.
      f_equal. lia.
    + rewrite Z.mod_pow2_bits_high by lia.
      symmetry. destruct (decide (o = 0)) as [->|Hne]; [apply Z.bits_0|].
      apply Z.bits_above_log2; [lia|].
      assert (Z.log2 o < 16) by (apply Z.log2_lt_pow2; lia). lia.
Qed.

Lemma eth_field_cases (P : window → Prop) :
  P (Window 8 6) → P (Window 14 4) → P (Window 18 6) → P (Window 24 4) →
  ∀ s, s ∈ @address_fields EthernetIPv4 → P s.
Proof.
  intros H1 H2 H3 H4 s Hs. unfold address_fields in Hs. simpl in Hs.
  repeat (apply elem_of_cons in Hs as [->|Hs]; [assumption|]).
  by apply elem_of_nil in Hs.
Qed.

Lemma slice_insert_below s (v : list Z) (i : nat) (b : Z) :
  (i < w_off s)%nat → slice s (<[i := b]> v) = slice s v.
Proof.
  intros Hi. apply slice_ext; [apply length_insert|].
  intros j Hj. apply list_lookup_insert_ne. lia.
Qed.

Lemma eth_SetOp_slice o v s :
  s ∈ @address_fields EthernetIPv4 →
  slice s (<[7%nat := uint8 o]> (<[6%nat := uint8 (Z.shiftr o 8)]> v)) = slice s v.
Proof.
  revert s. apply eth_field_cases;
    rewrite !slice_insert_below by (simpl; lia); done.
Qed.

Lemma eth_Op_copy s src v :
  s ∈ @address_fields EthernetIPv4 → in_bounds s v →
  eth_Op (copy s src v) = eth_Op v.
Proof.
  intros Hs. pattern s. revert s Hs.
  apply eth_field_cases; intros Hb; unfold eth_Op, index;
    rewrite !lookup_copy by done; simpl;
    repeat (case_decide; [lia|]); done.
Qed.

Global Instance EthernetIPv4_layout : ARPLayout EthernetIPv4.
Proof.
  split; simpl.
  - done.
  - intros v Hv. unfold eth_IsValid in Hv.
    do 6 (destruct v as [|? v]; [discriminate|]).
    repeat (apply andb_prop in Hv as [Hv _]).
    by apply bool_decide_eq_true in Hv.
  - apply eth_field_cases; simpl; lia.
  - unfold disjoint; simpl; lia.
  - unfold disjoint; simpl; lia.
  - unfold disjoint; simpl; lia.
  - unfold disjoint; simpl; lia.
  - unfold disjoint; simpl; lia.
  - done.
  - lia.
  - intros v Hv. do 8 (destruct v as [|? v]; [simpl in Hv; lia|]).
    eexists. reflexivity.
  - intros o v Ho Hv. unfold eth_SetOp. rewrite decide_True by lia.
    eexists. split; [done|]. split; [by rewrite !length_insert|]. split.
    + do 8 (destruct v as [|? v]; [simpl in Hv; lia|]).
      cbn. f_equal. by apply be16_uint8.
    + intros s Hs. by apply eth_SetOp_slice.
  - apply eth_Op_copy.
Qed.

End HeaderFacts.
Export HeaderFacts.

(* ===================================================================== *)
(** ** The ARP endpoint                                                   *)
(* ===================================================================== *)

Module EndpointFacts.

Section WithHeader.
Context {H : ARP} {L : ARPLayout H}.

Lemma MaxHeaderLength_range (e : endpoint) : 0 ≤ MaxHeaderLength e < 2 ^ 16.
Proof. apply wrap16_range. Qed.

(** C10: [MTU] is the link MTU minus [MaxHeaderLength] in unsigned 32-bit
    arithmetic, where [MaxHeaderLength] is the link header length plus
    [ARPSize] (as a uint16). When the link MTU is at least the header
    length this is the plain difference; when it is smaller the result
    wraps around modulo 2^32: it is neither zero nor an error, but a value
    above the link MTU itself. *)
Theorem MTU_wraps_modulo_2_32 (e : endpoint) :
  0 ≤ link_MTU (linkEP e) < 2 ^ 32 →
  MaxHeaderLength e =
    (link_MaxHeaderLength (linkEP e) + Z.of_nat ARPSize) mod 2 ^ 16 ∧
  MTU e = (link_MTU (linkEP e) - MaxHeaderLength e) mod 2 ^ 32 ∧
  (MaxHeaderLength e ≤ link_MTU (linkEP e) →
     MTU e = link_MTU (linkEP e) - MaxHeaderLength e) ∧
  (link_MTU (linkEP e) < MaxHeaderLength e →
     MTU e = 2 ^ 32 - (MaxHeaderLength e - link_MTU (linkEP e)) ∧
     MTU e ≠ 0 ∧ link_MTU (linkEP e) < MTU e).
Proof.
  intros Hm. pose proof (MaxHeaderLength_range e) as Hh.
  assert (MTU e = (link_MTU (linkEP e) - MaxHeaderLength e) mod 2 ^ 32) as HM.
  { unfold MTU. cbv zeta. rewrite (wrap32_small (MaxHeaderLength e)) by lia. done. }
  split; [done|]. split; [done|]. split.
  - intros Hle. rewrite HM. apply Z.mod_small. lia.
  - intros Hlt.
    assert (MTU e = 2 ^ 32 - (MaxHeaderLength e - link_MTU (linkEP e))) as Hw.
    { rewrite HM.
      replace (link_MTU (linkEP e) - MaxHeaderLength e)
        with (2 ^ 32 - (MaxHeaderLength e - link_MTU (linkEP e)) + (-1) * 2 ^ 32)
        by lia.
      rewrite Z.mod_add by lia. apply Z.mod_small. lia. }
    split; [done|]. rewrite Hw. lia.
Qed.

(** C6 (as the code has it): for every route, header, payload and
    protocol number, [WritePacket] of the ARP endpoint panics with the
    message of its body; it returns nothing to its caller, neither an
    error nor success. *)
Theorem WritePacket_panics (e : endpoint) (r : Route) (hdr : Prependable)
    (payload : list Z) (protocol : Z) (w : World) :
  WritePacket e r hdr payload protocol w = Panic "arp.WritePacket TODO" ∧
  ¬ returns (WritePacket e r hdr payload protocol w).
Proof.
  split; [reflexivity|]. intros [a Ha]. discriminate Ha.
Qed.

End WithHeader.

(** C10 at a link MTU of 10 under a header length of 14 + 28: the MTU of
    the endpoint is 2^32 - 32. *)
Lemma MTU_wraps_modulo_2_32_witness :
  MTU (H := EthernetIPv4) tiny_endpoint = 4294967264 ∧
  MTU (H := EthernetIPv4) tiny_endpoint ≠ 0.
Proof.
  assert (0 ≤ link_MTU (linkEP tiny_endpoint) < 2 ^ 32) as Hm by (simpl; lia).
  destruct (MTU_wraps_modulo_2_32 (H := EthernetIPv4) tiny_endpoint Hm)
    as (_ & _ & _ & Hwrap).
  assert (link_MTU (linkEP tiny_endpoint)
          < MaxHeaderLength (H := EthernetIPv4) tiny_endpoint) as Hlt
    by (vm_compute; reflexivity).
  destruct (Hwrap Hlt) as (Heq & Hne & _).
  split; [|exact Hne]. rewrite Heq. vm_compute. reflexivity.
Defined.

(** C6, as the specification words it, fails: a call of [WritePacket] does not
    return an error, it does not return at all. *)
Lemma WritePacket_returns_no_error :
  ¬ ∃ (err : error) (w : World),
      WritePacket host_endpoint host_route
        (NewPrependable 14) [] 6 world0 = Done (Some err, w).
Proof. intros (err & w & Heq). discriminate Heq. Qed.

End EndpointFacts.

(* ===================================================================== *)
(** ** Inbound frames: [HandlePacket] and the handler of the lookup       *)
(* ===================================================================== *)

Module InboundFacts.

Section WithHeader.
Context {H : ARP} {L : ARPLayout H}.

Lemma disjoint_sym s t : disjoint s t → disjoint t s.
Proof. unfold disjoint. lia. Qed.

Lemma hw_sender_field : HardwareAddressSender ∈ address_fields.
Proof. unfold address_fields. set_solver. Qed.
Lemma proto_sender_field : ProtocolAddressSender ∈ address_fields.
Proof. unfold address_fields. set_solver. Qed.
Lemma hw_target_field : HardwareAddressTarget ∈ address_fields.
Proof. unfold address_fields. set_solver. Qed.
Lemma proto_target_field : ProtocolAddressTarget ∈ address_fields.
Proof. unfold address_fields. set_solver. Qed.

Lemma field_in_bounds s v :
  s ∈ address_fields → (ARPSize ≤ length v)%nat → in_bounds s v.
Proof. intros Hs Hv. pose proof (field_fits s Hs). unfold in_bounds. lia. Qed.

Lemma field_slice s v :
  s ∈ address_fields → (ARPSize ≤ length v)%nat → returns (slice s v).
Proof.
  intros Hs Hv. eexists. apply slice_Done. by apply field_in_bounds.
Qed.

(** A frame that fails validation: nothing happens at all. *)
Lemma HandlePacket_invalid (e : endpoint) r v w :
  IsValid v = false → HandlePacket e r v w = Done (v, w).
Proof. intros Hv. unfold HandlePacket. by rewrite Hv. Qed.

(** A frame for an address that is not local: nothing happens either. *)
Lemma HandlePacket_not_local (e : endpoint) r v w tpa :
  IsValid v = true → slice ProtocolAddressTarget v = Done tpa →
  CheckLocalAddress (stack e) 0 tpa = 0 → HandlePacket e r v w = Done (v, w).
Proof.
  intros Hv Ht Hn. unfold HandlePacket. rewrite Hv, Ht. simpl.
  rewrite ?bind_Done. by rewrite decide_True.
Qed.

(** What [HandlePacket] does with a valid Request for a local address:
    the view is rewritten in place into [reply], which is handed to the
    link endpoint once, and then to the handler if there is one. In
    [reply] the operation code is Reply, the sender hardware address is
    the link address of the route (when that has the size of the field),
    and the sender protocol address is the address asked for; both target
    fields are those of the Request. *)
Lemma HandlePacket_request (e : endpoint) r v w tpa :
  IsValid v = true → slice ProtocolAddressTarget v = Done tpa →
  CheckLocalAddress (stack e) 0 tpa ≠ 0 → Op v = Done ARPRequest →
  ∃ reply,
    let w1 := link_WritePacket r (NewPrependable (link_MaxHeaderLength (linkEP e)))
                reply ProtocolNumber w in
    HandlePacket e r v w =
      match handler e with
      | Some f => '(_, w2) ← f r reply w1; Done (reply, w2)
      | None => Done (reply, w1)
      end ∧
    Op reply = Done ARPReply ∧
    (length (LocalLinkAddress r) = w_len HardwareAddressSender →
       slice HardwareAddressSender reply = Done (LocalLinkAddress r)) ∧
    slice ProtocolAddressSender reply = Done tpa ∧
    slice ProtocolAddressTarget reply = Done tpa ∧
    slice HardwareAddressTarget reply = slice HardwareAddressTarget v.
Proof.
  intros Hv Ht Hn Hop.
  pose proof (valid_size v Hv) as Hlen.
  destruct (SetOp_returns ARPReply v reply_uint16 Hlen)
    as (v1 & Hset & Hlen1 & Hop1 & Hsame).
  set (v2 := copy HardwareAddressSender (LocalLinkAddress r) v1).
  set (v3 := copy ProtocolAddressSender tpa v2).
  assert (in_bounds HardwareAddressSender v1) as Hb1
    by (apply field_in_bounds; [apply hw_sender_field|lia]).
  assert (length v2 = length v) as Hlen2
    by (unfold v2; rewrite length_copy by done; lia).
  assert (in_bounds ProtocolAddressSender v2) as Hb2
    by (apply field_in_bounds; [apply proto_sender_field|lia]).
  assert (slice ProtocolAddressTarget v2 = Done tpa) as Ht2.
  { unfold v2. rewrite slice_copy_other by (done || apply hw_sender_proto_target).
    rewrite Hsame by apply proto_target_field. done. }
  assert (length tpa = w_len ProtocolAddressSender) as Htl
    by (rewrite proto_lengths; by eapply length_slice).
  exists v3. cbv zeta. repeat split.
  - unfold HandlePacket. rewrite Hv, Ht. simpl. rewrite ?bind_Done.
    rewrite decide_False by done. rewrite Hop. rewrite ?bind_Done.
    rewrite decide_True by done. rewrite Hset. rewrite ?bind_Done.
    rewrite (slice_Done HardwareAddressSender v1) by done. rewrite ?bind_Done. fold v2.
    rewrite (slice_Done ProtocolAddressSender v2) by done. rewrite ?bind_Done.
    rewrite Ht2. rewrite ?bind_Done. fold v3. done.
  - unfold v3, v2. rewrite !Op_copy; try done.
    + apply hw_sender_field.
    + apply proto_sender_field.
  - intros Hll. unfold v3.
    rewrite slice_copy_other
      by (done || apply disjoint_sym, hw_sender_proto_sender).
    unfold v2. by apply slice_copy_same.
  - unfold v3. by apply slice_copy_same.
  - unfold v3. rewrite slice_copy_other
      by (done || apply proto_sender_proto_target). done.
  - unfold v3. rewrite slice_copy_other
      by (done || apply proto_sender_hw_target).
    unfold v2. rewrite slice_copy_other
      by (done || apply hw_sender_hw_target).
    apply Hsame, hw_target_field.
Qed.

End WithHeader.

End InboundFacts.

(* ===================================================================== *)
(** ** The handler and the lookup function of [NewLinkAddressLookup]      *)
(* ===================================================================== *)

Module LookupFacts.

(** Notifying a waiter touches the registry and the channels only. *)
Lemma notify_frame addr linkAddr entry w :
  sent (notify addr linkAddr entry w) = sent w ∧
  linkAddrCache (notify addr linkAddr entry w) = linkAddrCache w.
Proof.
  destruct entry as [ch chAddr]. unfold notify, try_send.
  repeat case_decide; done.
Qed.

Lemma foldr_notify_frame addr linkAddr entries w :
  sent (foldr (notify addr linkAddr) w entries) = sent w ∧
  linkAddrCache (foldr (notify addr linkAddr) w entries) = linkAddrCache w.
Proof.
  induction entries as [|entry entries [IHs IHc]]; [done|]. simpl.
  destruct (notify_frame addr linkAddr entry
              (foldr (notify addr linkAddr) w entries)) as [-> ->]. done.
Qed.

Section WithHeader.
Context {H : ARP} {L : ARPLayout H}.

(** The handler on a frame that holds all the fields: it does not look at
    [IsValid]. *)
Lemma lookupHandler_runs (s : Stack) r v w :
  (ARPSize ≤ length v)%nat →
  ∃ tpa spa sha op,
    slice ProtocolAddressTarget v = Done tpa ∧
    slice ProtocolAddressSender v = Done spa ∧
    slice HardwareAddressSender v = Done sha ∧
    Op v = Done op ∧
    lookupHandler s r v w =
      Done (false,
            if decide (op ≠ ARPReply) then learnt s tpa spa sha w
            else foldr (notify spa sha) (learnt s tpa spa sha w)
                   (map_to_list (wait w))).
Proof.
  intros Hlen.
  destruct (InboundFacts.field_slice _ v InboundFacts.proto_target_field Hlen)
    as [tpa Ht].
  destruct (InboundFacts.field_slice _ v InboundFacts.proto_sender_field Hlen)
    as [spa Hs].
  destruct (InboundFacts.field_slice _ v InboundFacts.hw_sender_field Hlen)
    as [sha Hh].
  destruct (Op_returns v Hlen) as [op Hop].
  exists tpa, spa, sha, op. repeat (split; [done|]).
  unfold lookupHandler. rewrite Ht, Hs, Hh, Hop. simpl.
  case_decide; done.
Qed.

(** The handler hands nothing to the link endpoint. *)
Lemma lookupHandler_sent (s : Stack) r v w b w' :
  lookupHandler s r v w = Done (b, w') → sent w' = sent w.
Proof.
  unfold lookupHandler.
  destruct (slice ProtocolAddressTarget v) as [tpa|]; [|discriminate].
  destruct (slice HardwareAddressSender v) as [sha|]; [|discriminate].
  destruct (slice ProtocolAddressSender v) as [spa|]; [|discriminate].
  simpl. destruct (Op v) as [op|]; [|discriminate]. simpl.
  case_decide; intros [= <- <-]; [done|].
  by destruct (foldr_notify_frame spa sha (map_to_list (wait w))
                 (AddLinkAddrCache (CheckLocalAddress s 0 tpa) spa sha
                    (Printf (PrintAdding sha spa) w))) as [-> _].
Qed.

End WithHeader.

End LookupFacts.

(* ===================================================================== *)
(** ** The properties of the specification, ARP part                      *)
(* ===================================================================== *)

Module ArpProperties.

Section WithHeader.
Context {H : ARP} {L : ARPLayout H}.

(** C5: on every inbound ARP frame (a packet of at least
    [MinimumPacketSize] bytes), Request or Reply alike, the handler of the
    lookup records the sender hardware address under the pair of
    the interface (the one [CheckLocalAddress] names for the target
    address) and the sender protocol address, replacing what the cache
    held for that pair, and reports the frame as not consumed; when the
    operation code is not Reply it leaves the waiter registry and every
    channel as they were. *)
Theorem lookupHandler_learns_every_frame (s : Stack) r v w :
  (MinimumPacketSize ≤ length v)%nat →
  ∃ tpa spa sha op w',
    slice ProtocolAddressTarget v = Done tpa ∧
    slice ProtocolAddressSender v = Done spa ∧
    slice HardwareAddressSender v = Done sha ∧
    Op v = Done op ∧
    lookupHandler s r v w = Done (false, w') ∧
    linkAddrCache w' =
      <[(CheckLocalAddress s 0 tpa, spa) := sha]> (linkAddrCache w) ∧
    linkAddrCache w' !! (CheckLocalAddress s 0 tpa, spa) = Some sha ∧
    (op ≠ ARPReply →
       wait w' = wait w ∧ handoff w' = handoff w ∧ receiving w' = receiving w).
Proof.
  intros Hlen.
  destruct (LookupFacts.lookupHandler_runs s r v w Hlen)
    as (tpa & spa & sha & op & Ht & Hs & Hh & Hop & Hrun).
  exists tpa, spa, sha, op. eexists. repeat (split; [done|]).
  assert (linkAddrCache
            (if decide (op ≠ ARPReply) then learnt s tpa spa sha w
             else foldr (notify spa sha) (learnt s tpa spa sha w)
                    (map_to_list (wait w)))
          = <[(CheckLocalAddress s 0 tpa, spa) := sha]> (linkAddrCache w)) as Hc.
  { case_decide; [done|].
    by destruct (LookupFacts.foldr_notify_frame spa sha (map_to_list (wait w))
                   (learnt s tpa spa sha w)) as [_ ->]. }
  split; [exact Hc|]. split.
  - rewrite Hc. apply lookup_insert_eq.
  - intros Hne. by rewrite decide_True by done.
Qed.

(** C4 (as the code has it): for every inbound frame that fails
    validation, [HandlePacket] changes nothing: no packet is sent, the
    cache and the registry are as before, the frame is not rewritten and
    is not passed on to the handler. The handler of the lookup never
    sends a packet either; but it does not validate the frame: called on
    a frame that holds all the fields, valid or not, it records the sender
    mapping in the cache. *)
Theorem invalid_frame_dropped_by_HandlePacket (e : endpoint) (s : Stack) r v w :
  IsValid v = false →
  HandlePacket e r v w = Done (v, w) ∧
  (∀ b w', lookupHandler s r v w = Done (b, w') → sent w' = sent w) ∧
  ((MinimumPacketSize ≤ length v)%nat →
     ∃ tpa spa sha w',
       slice ProtocolAddressTarget v = Done tpa ∧
       slice ProtocolAddressSender v = Done spa ∧
       slice HardwareAddressSender v = Done sha ∧
       lookupHandler s r v w = Done (false, w') ∧
       linkAddrCache w' =
         <[(CheckLocalAddress s 0 tpa, spa) := sha]> (linkAddrCache w)).
Proof.
  intros Hv. split; [by apply InboundFacts.HandlePacket_invalid|]. split.
  - intros b w'. apply LookupFacts.lookupHandler_sent.
  - intros Hlen.
    destruct (LookupFacts.lookupHandler_runs s r v w Hlen)
      as (tpa & spa & sha & op & Ht & Hs & Hh & Hop & Hrun).
    exists tpa, spa, sha. eexists. repeat (split; [done|]).
    case_decide; [done|].
    by destruct (LookupFacts.foldr_notify_frame spa sha (map_to_list (wait w))
                   (learnt s tpa spa sha w)) as [_ ->].
Qed.

End WithHeader.

End ArpProperties.

(* ===================================================================== *)
(** ** The lookup function: registration and timeout                      *)
(* ===================================================================== *)

Module ResolveFacts.

(** Entering the lookup function writes nothing to the waiter registry:
    there is no [wait[ch] = addr] in its body. *)
Lemma resolve_enter_wait (addr : list Z) (w : World) :
  wait (resolve_enter addr w).2 = wait w.
Proof. reflexivity. Qed.

Lemma resolve_enter_handoff (addr : list Z) (w : World) :
  handoff (resolve_enter addr w).2 = handoff w.
Proof. reflexivity. Qed.

Lemma resolve_enter_clock (addr : list Z) (w : World) :
  pd_deadline (resolve_enter addr w).1 = clock w + arpWait.
Proof. reflexivity. Qed.

(** Leaving through the timer. *)
Lemma resolve_leave_timeout (p : Pending) (w : World) :
  handoff w !! pd_chan p = None →
  resolve_leave p w =
    (([], Some ErrTimeout),
     with_wait (λ m, delete (pd_chan p) m)
       (with_receiving (λ s, s ∖ {[pd_chan p]})
          (with_clock (λ t, Z.max t (pd_deadline p)) w))).
Proof. intros Hh. unfold resolve_leave. by rewrite Hh. Qed.

(** Lookups in a row, none answered: each one times out, and the
    registry is empty after each. *)
Lemma resolve_each_timeouts (hd : Handler) (addrs : list (list Z)) (w : World) :
  wait w = ∅ → handoff w = ∅ →
  ∃ w', resolve_each hd addrs w
          = Done (replicate (length addrs) ([], Some ErrTimeout), w') ∧
        wait w' = ∅ ∧ handoff w' = ∅.
Proof.
  revert w. induction addrs as [|addr addrs IH]; intros w Hw Hh.
  - exists w. done.
  - simpl. unfold resolve. simpl.
    rewrite resolve_leave_timeout by (simpl; rewrite Hh; apply lookup_empty).
    simpl.
    edestruct IH as (w' & -> & Hw' & Hh');
      [| |exists w'; split; [reflexivity|done]].
    + simpl. rewrite Hw. apply delete_empty.
    + simpl. done.
Qed.

(** C3: a call of the lookup function on whose channel no value is
    delivered leaves through the timer: it returns the timeout error, not
    before 15 seconds (15 * 10^9 ns) have passed since the call, and right
    after it the waiter registry has no entry for the channel of the
    call; a registry that was empty is empty again. Hence lookups made
    one after the other for addresses that never reply all time out and
    leave the registry empty every time. *)
Theorem resolve_timeout_leaves_no_waiter (addr : list Z) (w w2 : World) :
  handoff w2 !! pd_chan (resolve_enter addr w).1 = None →
  ∃ w3,
    resolve_leave (resolve_enter addr w).1 w2 = (([], Some ErrTimeout), w3) ∧
    clock w + 15 * 1000000000 ≤ clock w3 ∧
    wait w3 !! pd_chan (resolve_enter addr w).1 = None ∧
    wait w3 = delete (pd_chan (resolve_enter addr w).1) (wait w2) ∧
    (wait w2 = ∅ → wait w3 = ∅) ∧
    (∀ hd addrs w0, wait w0 = ∅ → handoff w0 = ∅ →
       ∃ w', resolve_each hd addrs w0
               = Done (replicate (length addrs) ([], Some ErrTimeout), w') ∧
             wait w' = ∅).
Proof.
  intros Hh. eexists. split; [by apply resolve_leave_timeout|].
  simpl. split; [unfold arpWait, Second; lia|].
  split; [apply lookup_delete_eq|]. split; [done|]. split.
  - intros ->. apply delete_empty.
  - intros hd addrs w0 Hw0 Hh0.
    destruct (resolve_each_timeouts hd addrs w0 Hw0 Hh0) as (w' & Hr & Hw' & _).
    by exists w'.
Qed.

(** C3 for a lookup of 10.0.0.5 on a fresh stack. *)
Lemma resolve_timeout_leaves_no_waiter_witness :
  ∃ w3,
    resolve_leave (resolve_enter [10; 0; 0; 5] world0).1
      (resolve_enter [10; 0; 0; 5] world0).2 = (([], Some ErrTimeout), w3) ∧
    wait w3 = ∅.
Proof.
  assert (handoff (resolve_enter [10; 0; 0; 5] world0).2
            !! pd_chan (resolve_enter [10; 0; 0; 5] world0).1 = None) as Hh
    by reflexivity.
  destruct (resolve_timeout_leaves_no_waiter [10; 0; 0; 5] world0
              (resolve_enter [10; 0; 0; 5] world0).2 Hh)
    as (w3 & Hleave & _ & _ & _ & Hempty & _).
  exists w3. split; [exact Hleave|]. apply Hempty. reflexivity.
Defined.

End ResolveFacts.

(* ===================================================================== *)
(** ** The code on the frames of the scenario                             *)
(* ===================================================================== *)

Module ArpExamples.

#[local] Existing Instance EthernetIPv4.

(** C1 (the code on the Request of the specification's scenario): the
    host owns 192.168.1.1 and is asked for it by 192.168.1.2. One packet
    is handed to the link endpoint; its operation code is Reply, its
    sender hardware address is the link address of the route and its
    sender protocol address is 192.168.1.1. Its target protocol address
    is 192.168.1.1 as well, not the 192.168.1.2 of the requester, and its
    target hardware address is still the one of the Request (all zero),
    not aa:bb:cc:dd:ee:ff: the sender protocol address is overwritten with
    the target one and nothing is written to the target fields. *)
Theorem HandlePacket_reply_keeps_target_fields :
  IsValid request_frame = true ∧
  Op request_frame = Done ARPRequest ∧
  slice HardwareAddressSender request_frame
    = Done [0xaa; 0xbb; 0xcc; 0xdd; 0xee; 0xff] ∧
  slice ProtocolAddressSender request_frame = Done [192; 168; 1; 2] ∧
  slice ProtocolAddressTarget request_frame = Done [192; 168; 1; 1] ∧
  ∃ reply w',
    HandlePacket host_endpoint host_route request_frame world0
      = Done (reply, w') ∧
    pk_payload <$> sent w' = [reply] ∧
    Op reply = Done ARPReply ∧
    slice HardwareAddressSender reply = Done (LocalLinkAddress host_route) ∧
    slice ProtocolAddressSender reply = Done [192; 168; 1; 1] ∧
    slice ProtocolAddressTarget reply = Done [192; 168; 1; 1] ∧
    slice HardwareAddressTarget reply = Done [0; 0; 0; 0; 0; 0] ∧
    slice ProtocolAddressTarget reply ≠ slice ProtocolAddressSender request_frame.
Proof.
  do 5 (split; [vm_compute; reflexivity|]).
  eexists _, _. split; [vm_compute; reflexivity|].
  do 6 (split; [vm_compute; reflexivity|]).
  vm_compute. discriminate.
Qed.

(** C2 (the code on a lookup of 10.0.0.5 that is answered): the lookup
    function of a fresh [NewLinkAddressLookup] is entered, and while its
    caller is blocked on the channel the Reply of 10.0.0.5 reaches the
    handler. The registry is empty when the caller blocks, so the handler
    learns the mapping, finds no waiter and hands nothing over, and the
    call times out. Had the channel been entered in the registry under
    the address, the same handler would have handed the link address to
    the caller. *)
Theorem resolve_registers_no_waiter :
  wait blocked_lookup.2 = ∅ ∧
  wait blocked_lookup.2 !! pd_chan blocked_lookup.1 = None ∧
  (∃ w2, host_lookup.1 host_route reply_frame blocked_lookup.2 = Done (false, w2) ∧
         linkAddrCache w2 !! (1, [10; 0; 0; 5])
           = Some [0x0a; 0x0b; 0x0c; 0x0d; 0x0e; 0x0f] ∧
         handoff w2 !! pd_chan blocked_lookup.1 = None ∧
         (resolve_leave blocked_lookup.1 w2).1 = ([], Some ErrTimeout)) ∧
  (∃ w', resolve host_lookup.1 [(host_route, reply_frame)] [10; 0; 0; 5]
           host_lookup.2
           = Done (([], Some ErrTimeout), w')) ∧
  (∃ w2, host_lookup.1 host_route reply_frame
           (with_wait (λ m, <[pd_chan blocked_lookup.1 := [10; 0; 0; 5]]> m)
              blocked_lookup.2)
           = Done (false, w2) ∧
         (resolve_leave blocked_lookup.1 w2).1
           = ([0x0a; 0x0b; 0x0c; 0x0d; 0x0e; 0x0f], None)).
Proof.
  split; [vm_compute; reflexivity|].
  split; [vm_compute; reflexivity|]. split.
  - eexists. split; [vm_compute; reflexivity|].
    split; [vm_compute; reflexivity|].
    split; vm_compute; reflexivity.
  - split; [eexists; vm_compute; reflexivity|].
    eexists. split; [vm_compute; reflexivity|]. vm_compute. reflexivity.
Qed.

(** C4, as the specification words it, fails: the malformed frame does not pass
    [IsValid], and the handler of the lookup, called on it, changes the
    cache. *)
Lemma lookupHandler_learns_from_malformed_frame :
  IsValid malformed_frame = false ∧
  ∃ w', lookupHandler host_stack host_route malformed_frame world0
          = Done (false, w') ∧
        linkAddrCache world0 !! (1, [192; 168; 1; 2]) = None ∧
        linkAddrCache w' !! (1, [192; 168; 1; 2])
          = Some [0xaa; 0xbb; 0xcc; 0xdd; 0xee; 0xff].
Proof.
  split; [vm_compute; reflexivity|].
  eexists. split; [vm_compute; reflexivity|].
  split; [vm_compute; reflexivity|]. vm_compute. reflexivity.
Qed.

(** C4 on the malformed frame. *)
Lemma invalid_frame_dropped_by_HandlePacket_witness :
  HandlePacket host_endpoint host_route malformed_frame world0
    = Done (malformed_frame, world0).
Proof.
  assert (IsValid malformed_frame = false) as Hv by (vm_compute; reflexivity).
  exact (proj1 (ArpProperties.invalid_frame_dropped_by_HandlePacket
                  host_endpoint host_stack host_route malformed_frame world0 Hv)).
Defined.

(** C5 on the Request of the scenario: a Request teaches the handler the
    mapping of its sender. *)
Lemma lookupHandler_learns_every_frame_witness :
  ∃ w', lookupHandler host_stack host_route request_frame world0
          = Done (false, w') ∧
        linkAddrCache w' !! (1, [192; 168; 1; 2])
          = Some [0xaa; 0xbb; 0xcc; 0xdd; 0xee; 0xff] ∧
        wait w' = wait world0.
Proof.
  assert (MinimumPacketSize ≤ length request_frame)%nat as Hlen
    by (vm_compute; lia).
  destruct (ArpProperties.lookupHandler_learns_every_frame
              host_stack host_route request_frame world0 Hlen)
    as (tpa & spa & sha & op & w' & Ht & Hs & Hh & Hop & Hrun & _ & Hc & Hw).
  exists w'. split; [exact Hrun|].
  assert (tpa = [192; 168; 1; 1]) as -> by (vm_compute in Ht; congruence).
  assert (spa = [192; 168; 1; 2]) as -> by (vm_compute in Hs; congruence).
  assert (sha = [0xaa; 0xbb; 0xcc; 0xdd; 0xee; 0xff]) as ->
    by (vm_compute in Hh; congruence).
  assert (op = 1) as -> by (vm_compute in Hop; congruence).
  split; [exact Hc|]. apply Hw. vm_compute. discriminate.
Defined.

End ArpExamples.

(* ===================================================================== *)
(** ** The packet list: the store                                         *)
(* ===================================================================== *)

Module StoreFacts.
Import PacketList.

(** Reading a link or a list header after one write. *)
Lemma Next_SetNext e x e' m :
  Next e' (SetNext e x m) = if decide (e' = e) then x else Next e' m.
Proof.
  unfold Next, SetNext, entry. simpl. case_decide as Heq.
  - subst. by rewrite lookup_total_insert_eq.
  - by rewrite lookup_total_insert_ne.
Qed.

Lemma Prev_SetNext e x e' m : Prev e' (SetNext e x m) = Prev e' m.
Proof.
  unfold Prev, SetNext, entry. simpl. destruct (decide (e' = e)) as [->|Hne].
  - by rewrite lookup_total_insert_eq.
  - by rewrite lookup_total_insert_ne.
Qed.

Lemma Next_SetPrev e x e' m : Next e' (SetPrev e x m) = Next e' m.
Proof.
  unfold Next, SetPrev, entry. simpl. destruct (decide (e' = e)) as [->|Hne].
  - by rewrite lookup_total_insert_eq.
  - by rewrite lookup_total_insert_ne.
Qed.

Lemma Prev_SetPrev e x e' m :
  Prev e' (SetPrev e x m) = if decide (e' = e) then x else Prev e' m.
Proof.
  unfold Prev, SetPrev, entry. simpl. case_decide as Heq.
  - subst. by rewrite lookup_total_insert_eq.
  - by rewrite lookup_total_insert_ne.
Qed.

Lemma Next_set_head l x e m : Next e (set_head l x m) = Next e m.
Proof. reflexivity. Qed.
Lemma Prev_set_head l x e m : Prev e (set_head l x m) = Prev e m.
Proof. reflexivity. Qed.
Lemma Next_set_tail l x e m : Next e (set_tail l x m) = Next e m.
Proof. reflexivity. Qed.
Lemma Prev_set_tail l x e m : Prev e (set_tail l x m) = Prev e m.
Proof. reflexivity. Qed.

Lemma list_at_SetNext l e x m : list_at l (SetNext e x m) = list_at l m.
Proof. reflexivity. Qed.
Lemma list_at_SetPrev l e x m : list_at l (SetPrev e x m) = list_at l m.
Proof. reflexivity. Qed.

Lemma head_set_head l x l' m :
  head (list_at l' (set_head l x m))
  = if decide (l' = l) then x else head (list_at l' m).
Proof.
  unfold list_at, set_head. simpl. case_decide as Heq.
  - subst. by rewrite lookup_total_insert_eq.
  - by rewrite lookup_total_insert_ne.
Qed.

Lemma tail_set_head l x l' m :
  tail (list_at l' (set_head l x m)) = tail (list_at l' m).
Proof.
  unfold list_at, set_head. simpl. destruct (decide (l' = l)) as [->|Hne].
  - by rewrite lookup_total_insert_eq.
  - by rewrite lookup_total_insert_ne.
Qed.

Lemma head_set_tail l x l' m :
  head (list_at l' (set_tail l x m)) = head (list_at l' m).
Proof.
  unfold list_at, set_tail. simpl. destruct (decide (l' = l)) as [->|Hne].
  - by rewrite lookup_total_insert_eq.
  - by rewrite lookup_total_insert_ne.
Qed.

Lemma tail_set_tail l x l' m :
  tail (list_at l' (set_tail l x m))
  = if decide (l' = l) then x else tail (list_at l' m).
Proof.
  unfold list_at, set_tail. simpl. case_decide as Heq.
  - subst. by rewrite lookup_total_insert_eq.
  - by rewrite lookup_total_insert_ne.
Qed.

Create Rewrite HintDb store.
#[export] Hint Rewrite Next_SetNext Prev_SetNext Next_SetPrev Prev_SetPrev
  Next_set_head Prev_set_head Next_set_tail Prev_set_tail
  list_at_SetNext list_at_SetPrev
  head_set_head tail_set_head head_set_tail tail_set_tail : store.

(** Read through all the writes of an operation. *)
Ltac store :=
  autorewrite with store;
  repeat (case_decide; subst; try congruence; try done).

(** The ends of a sequence. *)
Lemma last_or_snoc b xs x : last_or b (xs ++ [x]) = Some x.
Proof. unfold last_or. by rewrite last_snoc. Qed.

Lemma last_or_cons b x xs : last_or b (x :: xs) = last_or (Some x) xs.
Proof.
  unfold last_or. destruct xs as [|y xs]; [done|].
  rewrite last_cons. by destruct (last (y :: xs)).
Qed.

Lemma last_or_app b xs ys : last_or b (xs ++ ys) = last_or (last_or b xs) ys.
Proof.
  unfold last_or. rewrite last_app. by destruct (last ys), (last xs).
Qed.

Lemma first_or_app a xs ys : first_or a (xs ++ ys) = first_or (first_or a ys) xs.
Proof. by destruct xs. Qed.

Lemma first_or_elem a xs x : first_or a xs = Some x → a = Some x ∨ x ∈ xs.
Proof. destruct xs; simpl; [by left|]. intros [= ->]. right. set_solver. Qed.

Lemma last_or_elem b xs x : last_or b xs = Some x → b = Some x ∨ x ∈ xs.
Proof.
  induction xs as [|y xs IH] using rev_ind; [by left|].
  rewrite last_or_snoc. intros [= ->]. right. set_solver.
Qed.

(** Links of a segment. *)
Lemma seg_frame m m' b xs a :
  (∀ x, x ∈ xs → Next x m' = Next x m ∧ Prev x m' = Prev x m) →
  seg m b xs a → seg m' b xs a.
Proof.
  revert b. induction xs as [|x xs IH]; intros b Hag; [done|].
  simpl. intros (Hp & Hn & Hs).
  destruct (Hag x) as [-> ->]; [apply list_elem_of_here|].
  repeat split; [done..|]. apply IH; [|done]. intros y Hy.
  by apply Hag, list_elem_of_further.
Qed.

Lemma seg_app m b xs ys a :
  seg m b (xs ++ ys) a ↔
  seg m b xs (first_or a ys) ∧ seg m (last_or b xs) ys a.
Proof.
  revert b. induction xs as [|x xs IH]; intros b.
  - simpl. tauto.
  - simpl. rewrite IH, last_or_cons, first_or_app. tauto.
Qed.

Lemma seg_snoc m b xs x a :
  seg m b (xs ++ [x]) a ↔
  seg m b xs (Some x) ∧ Prev x m = last_or b xs ∧ Next x m = a.
Proof. rewrite seg_app. simpl. tauto. Qed.

(** Walking a segment. *)
Lemma walk_forward m b xs :
  seg m b xs None → walk Next m (length xs) (first_or None xs) = Some xs.
Proof.
  revert b. induction xs as [|x xs IH]; intros b; [done|].
  simpl. intros (_ & -> & Hs). by rewrite (IH _ Hs).
Qed.

Lemma walk_backward m xs a :
  seg m None xs a → walk Prev m (length xs) (last_or None xs) = Some (reverse xs).
Proof.
  revert a. induction xs as [|x xs IH] using rev_ind; intros a; [done|].
  rewrite seg_snoc. intros (Hs & Hp & _).
  rewrite last_or_snoc, length_app, Nat.add_comm. simpl.
  rewrite Hp, (IH _ Hs), reverse_snoc. done.
Qed.

End StoreFacts.

(* ===================================================================== *)
(** ** The packet list: the operations                                    *)
(* ===================================================================== *)

Module ListFacts.
Import PacketList StoreFacts.

Lemma not_in_one (l l' : nat) : l' ∉ [l] ↔ l' ≠ l.
Proof. by rewrite list_elem_of_singleton. Qed.

Lemma not_in_two (l o l' : nat) : l' ∉ [l; o] ↔ l' ≠ l ∧ l' ≠ o.
Proof. rewrite not_elem_of_cons. by rewrite list_elem_of_singleton. Qed.

Lemma holds_frame l ys m m' :
  head (list_at l m') = head (list_at l m) →
  tail (list_at l m') = tail (list_at l m) →
  (∀ y, y ∈ ys → Next y m' = Next y m ∧ Prev y m' = Prev y m) →
  holds l ys m → holds l ys m'.
Proof.
  intros Hh Ht Hag (Hnd & Hh' & Ht' & Hs).
  split; [done|]. rewrite Hh, Ht. repeat split; [done..|].
  by apply (seg_frame m).
Qed.

Lemma holds_head l xs m h :
  holds l xs m → head (list_at l m) = Some h → h ∈ xs.
Proof.
  intros (_ & Hh & _) Heq. rewrite Hh in Heq.
  by destruct (first_or_elem _ _ _ Heq).
Qed.

Lemma holds_tail l xs m t :
  holds l xs m → tail (list_at l m) = Some t → t ∈ xs.
Proof.
  intros (_ & _ & Ht & _) Heq. rewrite Ht in Heq.
  by destruct (last_or_elem _ _ _ Heq).
Qed.

(** What a list holds is read off by walking it from either end. *)
Lemma holds_consistent l xs m : holds l xs m → consistent l xs m.
Proof.
  intros (Hnd & Hh & Ht & Hs). unfold consistent, forward, backward, Front, Back.
  rewrite Hh, Ht. split; [by eapply walk_forward|].
  split; [unfold last_or; by destruct (last xs)|].
  split; [by eapply walk_backward|].
  rewrite last_reverse. by destruct xs.
Qed.

(** One list changes, the others are out of reach of the change. *)
Lemma Inv_step σ m m' l xs' touched :
  Inv σ m →
  same_outside [l] touched m m' →
  (∀ y l', l' ≠ l → y ∈ σ l' → y ∉ touched) →
  holds l xs' m' →
  (∀ y l', l' ≠ l → y ∈ xs' → y ∉ σ l') →
  Inv (<[l := xs']> σ) m'.
Proof.
  intros [Hall Hdis] [Hlists Hlinks] Htouched Hl Hnew. split.
  - intros l'. destruct (decide (l' = l)) as [->|Hne].
    + by rewrite fn_lookup_insert.
    + rewrite fn_lookup_insert_ne by done.
      destruct (Hlists l') as [Hh Ht]; [by apply not_in_one|].
      apply (holds_frame l' _ m); [done..| |done].
      intros y Hy. apply Hlinks. by eapply Htouched.
  - intros l1 l2 Hne y.
    destruct (decide (l1 = l)) as [->|Hne1];
      destruct (decide (l2 = l)) as [->|Hne2]; [done|..];
      rewrite ?fn_lookup_insert, ?fn_lookup_insert_ne by done.
    + intros Hy1 Hy2. by eapply Hnew.
    + intros Hy1 Hy2. by eapply Hnew.
    + by apply Hdis.
Qed.

(** [Reset] *)
Lemma Reset_holds l m : holds l [] (Reset l m).
Proof.
  unfold holds, Reset. cbv zeta. store. repeat split. apply NoDup_nil_2.
Qed.

Lemma Reset_outside l m : same_outside [l] [] m (Reset l m).
Proof.
  unfold same_outside, Reset. cbv zeta. split.
  - intros l' Hl'%not_in_one. by store.
  - intros y _. by store.
Qed.

(** [PushFront] *)
Lemma PushFront_holds l e xs m :
  holds l xs m → e ∉ xs → holds l (e :: xs) (PushFront l e m).
Proof.
  intros (Hnd & Hh & Ht & Hs) He. unfold holds, PushFront. cbv zeta.
  autorewrite with store. rewrite Hh.
  split; [by apply NoDup_cons|].
  destruct xs as [|h rest]; simpl.
  - by store.
  - apply not_elem_of_cons in He as [Hne He].
    apply NoDup_cons in Hnd as [Hh' Hnd].
    destruct Hs as (Hp & Hn & Hs).
    store. rewrite Ht, !last_or_cons.
    repeat split; [done..|].
    apply (seg_frame m); [|done]. intros y Hy. by store.
Qed.

Lemma PushFront_outside l e xs m :
  holds l xs m → same_outside [l] (e :: xs) m (PushFront l e m).
Proof.
  intros Hl. unfold same_outside, PushFront. cbv zeta. split.
  - intros l' Hl'%not_in_one.
    destruct (head (list_at l (SetPrev e None _))); by store.
  - intros y Hy. apply not_elem_of_cons in Hy as [Hne Hy].
    autorewrite with store.
    destruct (head (list_at l m)) as [h|] eqn:Hh; [|by store].
    pose proof (holds_head _ _ _ _ Hl Hh). by store.
Qed.

Lemma first_or_nonempty a b xs : xs ≠ [] → first_or a xs = first_or b xs.
Proof. by destruct xs. Qed.

(** [PushBack] *)
Lemma PushBack_holds l e xs m :
  holds l xs m → e ∉ xs → holds l (xs ++ [e]) (PushBack l e m).
Proof.
  intros (Hnd & Hh & Ht & Hs) He. unfold holds, PushBack. cbv zeta.
  autorewrite with store. rewrite Ht.
  split; [apply NoDup_app; repeat split; [done| |apply NoDup_singleton];
          intros x Hx ->%list_elem_of_singleton; done|].
  rewrite last_or_snoc, seg_snoc.
  destruct xs as [|t ys _] using rev_ind.
  - simpl. by store.
  - apply not_elem_of_app in He as [He Hne%not_elem_of_cons].
    destruct Hne as [Hne _].
    apply NoDup_app in Hnd as (Hnd & Hdis & _).
    apply seg_snoc in Hs as (Hs & Hp & Hn).
    rewrite last_or_snoc, seg_snoc. store. rewrite Hh, !first_or_app.
    repeat split; try done.
    apply (seg_frame m); [|done]. intros y Hy.
    assert (y ≠ t) by (intros ->; eapply Hdis; [done|apply list_elem_of_here]).
    by store.
Qed.

Lemma PushBack_outside l e xs m :
  holds l xs m → same_outside [l] (e :: xs) m (PushBack l e m).
Proof.
  intros Hl. unfold same_outside, PushBack. cbv zeta. split.
  - intros l' Hl'%not_in_one.
    destruct (tail (list_at l (SetPrev e _ _))); by store.
  - intros y Hy. apply not_elem_of_cons in Hy as [Hne Hy].
    autorewrite with store.
    destruct (tail (list_at l m)) as [t|] eqn:Ht; [|by store].
    pose proof (holds_tail _ _ _ _ Hl Ht). by store.
Qed.

Lemma NoDup_mid xs (b : nat) ys :
  NoDup (xs ++ b :: ys) ↔
  NoDup xs ∧ NoDup ys ∧ (b ∉ xs) ∧ (b ∉ ys) ∧ (∀ x, x ∈ xs → x ∉ ys).
Proof.
  rewrite NoDup_app, NoDup_cons. split.
  - intros (Hx & Hd & Hb & Hy). repeat split; try done.
    + intros Hin. eapply Hd; [done|]. apply list_elem_of_here.
    + intros x Hin Hin'. eapply Hd; [done|]. by apply list_elem_of_further.
  - intros (Hx & Hy & Hbx & Hby & Hd). repeat split; try done.
    intros x Hin [->|Hin']%elem_of_cons; [done|]. by eapply Hd.
Qed.

Lemma seg_mid m xs b ys :
  seg m None (xs ++ b :: ys) None ↔
  seg m None xs (Some b) ∧ Prev b m = last_or None xs ∧
  Next b m = first_or None ys ∧ seg m (Some b) ys None.
Proof. rewrite seg_app. simpl. tauto. Qed.

(** [InsertAfter] *)
Lemma InsertAfter_holds l b e xs ys m :
  holds l (xs ++ b :: ys) m → e ∉ xs ++ b :: ys →
  holds l (xs ++ b :: e :: ys) (InsertAfter l b e m).
Proof.
  intros (Hnd & Hh & Ht & Hs) He.
  apply not_elem_of_app in He as [Hex [Heb Hey]%not_elem_of_cons].
  apply NoDup_mid in Hnd as (Hx & Hy & Hbx & Hby & Hd).
  apply seg_mid in Hs as (Hs1 & Hp & Hn & Hs2).
  assert (∀ y, y ∈ xs → y ≠ b ∧ y ≠ e) as Hxs
    by (intros y Hin; split; intros ->; done).
  unfold holds, InsertAfter. cbv zeta. rewrite Hn.
  split.
  { apply NoDup_mid. repeat split; try done.
    - apply NoDup_cons. by split.
    - by apply not_elem_of_cons.
    - intros x Hin [->|Hin']%elem_of_cons; [done|]. by eapply Hd. }
  rewrite seg_mid. simpl.
  destruct ys as [|a ys']; simpl.
  - store. rewrite Hh, !first_or_app, !last_or_app. simpl.
    repeat split; try done.
    apply (seg_frame m); [|done]. intros y [? ?]%Hxs. by store.
  - apply not_elem_of_cons in Hey as [Hea Hey].
    apply not_elem_of_cons in Hby as [Hba Hby].
    apply NoDup_cons in Hy as [Hay Hy].
    destruct Hs2 as (Hpa & Hna & Hs2).
    store. rewrite Hh, Ht, !first_or_app, !last_or_app. simpl.
    rewrite !last_or_cons.
    repeat split; try done.
    + apply (seg_frame m); [|done]. intros y Hin.
      destruct (Hxs y Hin).
      assert (y ≠ a) by (intros ->; eapply Hd; [done|apply list_elem_of_here]).
      by store.
    + apply (seg_frame m); [|done]. intros y Hin.
      assert (y ≠ a ∧ y ≠ b ∧ y ≠ e) as (? & ? & ?)
        by (repeat split; intros ->; done).
      by store.
Qed.

Lemma InsertAfter_outside l b e xs ys m :
  holds l (xs ++ b :: ys) m →
  same_outside [l] (e :: xs ++ b :: ys) m (InsertAfter l b e m).
Proof.
  intros (Hnd & Hh & Ht & Hs).
  apply seg_mid in Hs as (Hs1 & Hp & Hn & Hs2).
  unfold same_outside, InsertAfter. cbv zeta. rewrite Hn. split.
  - intros l' Hl'%not_in_one. destruct (first_or None ys); by store.
  - intros y [Hye [Hyx [Hyb Hyy]%not_elem_of_cons]%not_elem_of_app]%not_elem_of_cons.
    destruct ys as [|a ys']; simpl; [by store|].
    apply not_elem_of_cons in Hyy as [Hya Hyy]. by store.
Qed.

(** [InsertBefore] *)
Lemma InsertBefore_holds l a e xs ys m :
  holds l (xs ++ a :: ys) m → e ∉ xs ++ a :: ys →
  holds l (xs ++ e :: a :: ys) (InsertBefore l a e m).
Proof.
  intros (Hnd & Hh & Ht & Hs) He.
  apply not_elem_of_app in He as [Hex [Hea Hey]%not_elem_of_cons].
  apply NoDup_mid in Hnd as (Hx & Hy & Hax & Hay & Hd).
  apply seg_mid in Hs as (Hs1 & Hp & Hn & Hs2).
  assert (∀ y, y ∈ ys → y ≠ a ∧ y ≠ e) as Hys
    by (intros y Hin; split; intros ->; done).
  unfold holds, InsertBefore. cbv zeta. rewrite Hp.
  split.
  { apply NoDup_mid. repeat split; try done.
    - apply NoDup_cons. by split.
    - by apply not_elem_of_cons.
    - intros x Hin [->|Hin']%elem_of_cons; [done|]. by eapply Hd. }
  rewrite seg_mid. simpl.
  destruct xs as [|b xs' _] using rev_ind; simpl.
  - store. rewrite Ht. simpl. rewrite !last_or_cons.
    repeat split; try done.
    apply (seg_frame m); [|done]. intros y [? ?]%Hys. by store.
  - apply not_elem_of_app in Hex as [Hex Heb%not_elem_of_cons].
    destruct Heb as [Heb _].
    apply not_elem_of_app in Hax as [Hax Hab%not_elem_of_cons].
    destruct Hab as [Hab _].
    apply NoDup_app in Hx as (Hx & Hbx & _).
    apply seg_snoc in Hs1 as (Hs1 & Hpb & Hnb).
    rewrite last_or_snoc, seg_snoc. store.
    rewrite Hh, Ht, !first_or_app, !last_or_app. simpl.
    rewrite !last_or_cons.
    repeat split; try done.
    + apply (seg_frame m); [|done]. intros y Hin.
      assert (y ≠ a ∧ y ≠ b ∧ y ≠ e) as (? & ? & ?).
      { repeat split; intros ->.
        - apply Hax. done.
        - eapply Hbx; [done|]. apply list_elem_of_here.
        - done. }
      by store.
    + apply (seg_frame m); [|done]. intros y Hin.
      destruct (Hys y Hin).
      assert (y ≠ b).
      { intros ->. eapply Hd; [|done]. apply elem_of_app. right.
        apply list_elem_of_here. }
      by store.
Qed.

Lemma InsertBefore_outside l a e xs ys m :
  holds l (xs ++ a :: ys) m →
  same_outside [l] (e :: xs ++ a :: ys) m (InsertBefore l a e m).
Proof.
  intros (Hnd & Hh & Ht & Hs).
  apply seg_mid in Hs as (Hs1 & Hp & Hn & Hs2).
  unfold same_outside, InsertBefore. cbv zeta. rewrite Hp. split.
  - intros l' Hl'%not_in_one. destruct (last_or None xs); by store.
  - intros y [Hye [Hyx [Hya Hyy]%not_elem_of_cons]%not_elem_of_app]%not_elem_of_cons.
    destruct xs as [|b xs' _] using rev_ind; simpl; [by store|].
    rewrite last_or_snoc.
    apply not_elem_of_app in Hyx as [Hyx Hyb%not_elem_of_cons].
    destruct Hyb as [Hyb _]. by store.
Qed.

(** [Remove] *)
Lemma Remove_holds l e xs ys m :
  holds l (xs ++ e :: ys) m → holds l (xs ++ ys) (Remove l e m).
Proof.
  intros (Hnd & Hh & Ht & Hs).
  apply NoDup_mid in Hnd as (Hx & Hy & Hex & Hey & Hd).
  apply seg_mid in Hs as (Hs1 & Hp & Hn & Hs2).
  unfold holds, Remove. cbv zeta. rewrite Hp, Hn.
  split.
  { apply NoDup_app. repeat split; done. }
  rewrite seg_app.
  destruct xs as [|p xs' _] using rev_ind;
    destruct ys as [|n ys']; simpl.
  - by store.
  - apply NoDup_cons in Hy as [Hny Hy].
    destruct Hs2 as (Hpn & Hnn & Hs2).
    store. rewrite Ht. simpl. rewrite !last_or_cons.
    repeat split; try done.
    apply (seg_frame m); [|done]. intros y Hin.
    assert (y ≠ n) by (intros ->; done). by store.
  - apply NoDup_app in Hx as (Hx & Hpx & _).
    apply seg_snoc in Hs1 as (Hs1 & Hpp & Hnp).
    rewrite !app_nil_r, !last_or_snoc, seg_snoc. store.
    rewrite Hh, !first_or_app. simpl.
    repeat split; try done.
    apply (seg_frame m); [|done]. intros y Hin.
    assert (y ≠ p) by (intros ->; eapply Hpx; [done|apply list_elem_of_here]).
    by store.
  - apply NoDup_cons in Hy as [Hny Hy].
    apply NoDup_app in Hx as (Hx & Hpx & _).
    destruct Hs2 as (Hpn & Hnn & Hs2).
    apply seg_snoc in Hs1 as (Hs1 & Hpp & Hnp).
    assert (p ≠ n).
    { intros ->. eapply Hd; [|apply list_elem_of_here].
      apply elem_of_app. right. apply list_elem_of_here. }
    rewrite !last_or_snoc, seg_snoc. store.
    rewrite Hh, Ht, !first_or_app, !last_or_app. simpl.
    rewrite !last_or_cons.
    repeat split; try done.
    + apply (seg_frame m); [|done]. intros y Hin.
      assert (y ≠ p) by (intros ->; eapply Hpx; [done|apply list_elem_of_here]).
      assert (y ≠ n).
      { intros ->. eapply Hd; [|apply list_elem_of_here].
        apply elem_of_app. by left. }
      by store.
    + apply (seg_frame m); [|done]. intros y Hin.
      assert (y ≠ n) by (intros ->; done).
      assert (y ≠ p).
      { intros ->. eapply Hd; [|by apply list_elem_of_further].
        apply elem_of_app. right. apply list_elem_of_here. }
      by store.
Qed.

Lemma Remove_outside l e xs ys m :
  holds l (xs ++ e :: ys) m →
  same_outside [l] (xs ++ e :: ys) m (Remove l e m).
Proof.
  intros (Hnd & Hh & Ht & Hs).
  apply seg_mid in Hs as (Hs1 & Hp & Hn & Hs2).
  unfold same_outside, Remove. cbv zeta. rewrite Hp, Hn. split.
  - intros l' Hl'%not_in_one.
    destruct (last_or None xs), (first_or None ys); by store.
  - intros y [Hyx [Hye Hyy]%not_elem_of_cons]%not_elem_of_app.
    destruct xs as [|p xs' _] using rev_ind;
      destruct ys as [|n ys']; simpl; rewrite ?last_or_snoc;
      try apply not_elem_of_cons in Hyy as [Hyn Hyy];
      try (apply not_elem_of_app in Hyx as [Hyx Hyp%not_elem_of_cons];
           destruct Hyp as [Hyp _]);
      by store.
Qed.

(** [PushBackList] *)
Lemma first_or_snoc a xs (t : nat) : ∃ h, first_or a (xs ++ [t]) = Some h.
Proof. destruct xs; simpl; eauto. Qed.

Lemma PushBackList_finish l o m m1 zs touched :
  l ≠ o → holds l zs m1 → same_outside [l] touched m m1 →
  holds l zs (Reset o m1) ∧ holds o [] (Reset o m1) ∧
  same_outside [l; o] touched m (Reset o m1).
Proof.
  intros Hlo Hl [Hlists Hlinks].
  destruct (Reset_outside o m1) as [Rlists Rlinks].
  split; [|split].
  - destruct (Rlists l) as [Hh Ht]; [by apply not_in_one|].
    apply (holds_frame l zs m1); [done..| |done].
    intros y _. apply Rlinks, not_elem_of_nil.
  - apply Reset_holds.
  - split.
    + intros l' [Hl' Ho']%not_in_two.
      destruct (Rlists l') as [-> ->]; [by apply not_in_one|].
      apply Hlists. by apply not_in_one.
    + intros y Hy. destruct (Rlinks y) as [-> ->]; [apply not_elem_of_nil|].
      by apply Hlinks.
Qed.

Lemma PushBackList_holds l o xs ys m :
  l ≠ o → holds l xs m → holds o ys m → (∀ x, x ∈ xs → x ∉ ys) →
  ∃ m', PushBackList l o m = Done m' ∧
        holds l (xs ++ ys) m' ∧ holds o [] m' ∧
        same_outside [l; o] (xs ++ ys) m m'.
Proof.
  intros Hlo (Hndx & Hhx & Htx & Hsx) (Hndy & Hhy & Hty & Hsy) Hd.
  assert (NoDup (xs ++ ys)) as Hnd by (apply NoDup_app; done).
  unfold PushBackList. rewrite Hhx.
  destruct xs as [|lt xs' _] using rev_ind.
  - simpl. eexists. split; [done|]. apply PushBackList_finish; [done| |].
    + unfold holds. store. rewrite Hhy, Hty. repeat split; try done.
      apply (seg_frame m); [|done]. intros y Hin. by store.
    + split; [intros l' Hl'%not_in_one|intros y Hy]; by store.
  - destruct (first_or_snoc None xs' lt) as [h ->]. rewrite Hhy.
    destruct ys as [|oh ys']; simpl.
    + eexists. split; [done|]. rewrite app_nil_r.
      apply PushBackList_finish; [done|by repeat split|by split].
    + rewrite Htx, last_or_snoc. simpl. eexists. split; [done|].
      apply NoDup_app in Hndx as (Hndx & Hltx & _).
      apply NoDup_cons in Hndy as [Hohy Hndy].
      apply seg_snoc in Hsx as (Hsx & Hplt & Hnlt).
      destruct Hsy as (Hpoh & Hnoh & Hsy).
      assert (lt ≠ oh).
      { intros ->. eapply Hd; [|apply list_elem_of_here].
        apply elem_of_app. right. apply list_elem_of_here. }
      apply PushBackList_finish; [done| |].
      * unfold holds. rewrite seg_app, seg_snoc. simpl. store.
        rewrite Hhx, Htx, Hty, !first_or_app, !last_or_app, ?last_or_snoc. simpl.
        rewrite !last_or_cons.
        repeat split; try done.
        -- apply (seg_frame m); [|done]. intros y Hin.
           assert (y ≠ lt)
             by (intros ->; eapply Hltx; [done|apply list_elem_of_here]).
           assert (y ≠ oh).
           { intros ->. eapply Hd; [|apply list_elem_of_here].
             apply elem_of_app. by left. }
           by store.
        -- apply (seg_frame m); [|done]. intros y Hin.
           assert (y ≠ oh) by (intros ->; done).
           assert (y ≠ lt).
           { intros ->. eapply Hd; [|by apply list_elem_of_further].
             apply elem_of_app. right. apply list_elem_of_here. }
           by store.
      * split; [intros l' Hl'%not_in_one; by store|].
        intros y [[Hyx Hylt%not_elem_of_cons]%not_elem_of_app
                  [Hyoh Hyy]%not_elem_of_cons]%not_elem_of_app.
        destruct Hylt as [Hylt _]. by store.
Qed.

(** Two lists change, the others are out of reach of the change. *)
Lemma Inv_step2 σ m m' l o xs' ys' touched :
  Inv σ m → l ≠ o →
  same_outside [l; o] touched m m' →
  (∀ y l', l' ≠ l → l' ≠ o → y ∈ σ l' → y ∉ touched) →
  holds l xs' m' → holds o ys' m' → (∀ y, y ∈ xs' → y ∉ ys') →
  (∀ y l', l' ≠ l → l' ≠ o → y ∈ xs' ∨ y ∈ ys' → y ∉ σ l') →
  Inv (<[o := ys']> (<[l := xs']> σ)) m'.
Proof.
  intros [Hall Hdis] Hlo [Hlists Hlinks] Htouched Hl Ho Hxy Hnew. split.
  - intros l'. destruct (decide (l' = o)) as [->|Hno].
    { by rewrite fn_lookup_insert. }
    rewrite fn_lookup_insert_ne by done.
    destruct (decide (l' = l)) as [->|Hnl].
    { by rewrite fn_lookup_insert. }
    rewrite fn_lookup_insert_ne by done.
    destruct (Hlists l') as [Hh Ht]; [by apply not_in_two|].
    apply (holds_frame l' _ m); [done..| |done].
    intros y Hy. apply Hlinks. by eapply Htouched.
  - assert (∀ k, (<[o := ys']> (<[l := xs']> σ)) k
                 = if decide (k = o) then ys'
                   else if decide (k = l) then xs' else σ k) as Hσ.
    { intros k. repeat case_decide; subst;
        rewrite ?fn_lookup_insert, ?fn_lookup_insert_ne by done;
        rewrite ?fn_lookup_insert, ?fn_lookup_insert_ne by done; done. }
    intros l1 l2 Hne y. rewrite !Hσ.
    repeat case_decide; subst; try done.
    + intros Hy1 Hy2. by eapply Hxy.
    + intros Hy1 Hy2. eapply Hnew; [| |right|]; done.
    + intros Hy1 Hy2. by eapply Hxy.
    + intros Hy1 Hy2. eapply Hnew; [| |left|]; done.
    + intros Hy1 Hy2. eapply Hnew; [| |right|]; done.
    + intros Hy1 Hy2. eapply Hnew; [| |left|]; done.
    + by apply Hdis.
Qed.

(** A walk determines the links it followed. *)
Lemma walk_links step m n p xs :
  walk step m n p = Some xs →
  p = first_or None xs ∧
  ∀ us x vs, xs = us ++ x :: vs → step x m = first_or None vs.
Proof.
  revert p xs. induction n as [|n IH]; intros p xs.
  - destruct p; simpl; [discriminate|]. intros [= <-]. split; [done|].
    intros [|? ?] ? ?; discriminate.
  - destruct p as [x0|]; simpl.
    + destruct (walk step m n (step x0 m)) as [rest|] eqn:Hw; [|discriminate].
      simpl. intros [= <-]. destruct (IH _ _ Hw) as [Hp Hl].
      split; [done|]. intros [|u us] x vs; simpl; intros [= -> ->].
      * done.
      * by eapply Hl.
    + intros [= <-]. split; [done|]. intros [|? ?] ? ?; discriminate.
Qed.

Lemma seg_of_links m b xs a :
  (∀ us x vs, xs = us ++ x :: vs →
     Prev x m = last_or b us ∧ Next x m = first_or a vs) →
  seg m b xs a.
Proof.
  revert b. induction xs as [|x0 rest IH]; intros b Hl; [done|]. simpl.
  destruct (Hl [] x0 rest eq_refl) as [Hp Hn]. repeat split; [done..|].
  apply IH. intros us x vs ->.
  destruct (Hl (x0 :: us) x vs eq_refl) as [Hp' Hn'].
  by rewrite last_or_cons in Hp'.
Qed.

Lemma first_or_reverse xs : first_or None (reverse xs) = last_or None xs.
Proof.
  destruct xs as [|x xs _] using rev_ind; [done|].
  by rewrite reverse_snoc, last_or_snoc.
Qed.

(** The two readings of "list [l] holds [xs]" agree. *)
Lemma contains_holds l xs m : contains l xs m ↔ holds l xs m.
Proof.
  split.
  - intros (Hnd & Hf & Hlast & Hb & Hfirst).
    unfold forward, backward, Front, Back in *.
    destruct (walk_links _ _ _ _ _ Hf) as [Hh Hnext].
    destruct (walk_links _ _ _ _ _ Hb) as [Ht Hprev].
    rewrite first_or_reverse in Ht.
    repeat split; [done..|].
    apply seg_of_links. intros us x vs ->. split; [|by eapply Hnext].
    rewrite <-first_or_reverse. apply (Hprev (reverse vs)).
    by rewrite reverse_app, reverse_cons, <-app_assoc.
  - intros Hl. split; [apply Hl|by apply holds_consistent].
Qed.

Lemma well_linked_Inv σ m : well_linked σ m ↔ Inv σ m.
Proof.
  unfold well_linked, Inv. split; intros [Hall Hdis]; (split; [|done]);
    intros l; by apply contains_holds.
Qed.

Lemma PushBack_other_head l e l' m :
  l' ≠ l → head (list_at l' (PushBack l e m)) = head (list_at l' m).
Proof.
  intros Hne. unfold PushBack. cbv zeta.
  destruct (tail (list_at l (SetPrev e _ _))); by store.
Qed.

Lemma PushBack_other_tail l e l' m :
  l' ≠ l → tail (list_at l' (PushBack l e m)) = tail (list_at l' m).
Proof.
  intros Hne. unfold PushBack. cbv zeta.
  destruct (tail (list_at l (SetPrev e _ _))); by store.
Qed.

(** One list changes, by packets of its own or packets in no list. *)
Lemma Inv_change σ m m' l touched xs' :
  Inv σ m →
  same_outside [l] touched m m' →
  (∀ y, y ∈ touched → free σ y ∨ y ∈ σ l) →
  holds l xs' m' →
  (∀ y, y ∈ xs' → free σ y ∨ y ∈ σ l) →
  Inv (<[l := xs']> σ) m'.
Proof.
  intros HI Hout Htouched Hl Hnew.
  assert (∀ y l', l' ≠ l → free σ y ∨ y ∈ σ l → y ∉ σ l') as Hfar.
  { intros y l' Hne [Hfree|Hin]; [apply Hfree|].
    intros Hin'. by apply (proj2 HI l' l Hne y). }
  apply (Inv_step σ m m' l xs' touched); [done..| |done|].
  - intros y l' Hne Hin Ht. by apply (Hfar y l' Hne (Htouched y Ht)).
  - intros y l' Hne Hin. by apply Hfar, Hnew.
Qed.

End ListFacts.

(* ===================================================================== *)
(** ** The properties of the specification, packet list part             *)
(* ===================================================================== *)

Module ListProperties.
Import PacketList StoreFacts ListFacts.

(** C7: every operation of the packet list keeps the lists well linked.
    In a well-linked store each list [l] contains its packets [σ l], each
    once: walking forward from the head visits them and ends at the tail,
    walking backward from the tail visits them in reverse and ends at the
    head; and no packet is reached from two lists. After [Reset],
    [PushFront], [PushBack], [PushBackList], [InsertAfter], [InsertBefore]
    and [Remove] the store is well linked again, for the packets the
    operation is meant to leave in each list, provided that a packet
    that is inserted is in no list, that the anchor of an insertion and
    the packet removed are in the list operated on, and that
    [PushBackList] is given another list. *)
Theorem list_operations_keep_lists_well_linked (σ : nat → list nat) (m : Memory) :
  well_linked σ m →
  (∀ l, well_linked (<[l := []]> σ) (Reset l m)) ∧
  (∀ l e, free σ e → well_linked (<[l := e :: σ l]> σ) (PushFront l e m)) ∧
  (∀ l e, free σ e → well_linked (<[l := σ l ++ [e]]> σ) (PushBack l e m)) ∧
  (∀ l o, l ≠ o →
     ∃ m', PushBackList l o m = Done m' ∧
           well_linked (<[o := []]> (<[l := σ l ++ σ o]> σ)) m') ∧
  (∀ l b e xs ys, σ l = xs ++ b :: ys → free σ e →
     well_linked (<[l := xs ++ b :: e :: ys]> σ) (InsertAfter l b e m)) ∧
  (∀ l a e xs ys, σ l = xs ++ a :: ys → free σ e →
     well_linked (<[l := xs ++ e :: a :: ys]> σ) (InsertBefore l a e m)) ∧
  (∀ l e xs ys, σ l = xs ++ e :: ys →
     well_linked (<[l := xs ++ ys]> σ) (Remove l e m)).
Proof.
  intros HI%well_linked_Inv. pose proof (proj1 HI) as Hall.
  repeat apply conj.
  - intros l. apply well_linked_Inv.
    apply (Inv_change σ m _ l []); [done|apply Reset_outside| |apply Reset_holds|];
      by intros y ?%elem_of_nil.
  - intros l e He. apply well_linked_Inv.
    apply (Inv_change σ m _ l (e :: σ l));
      [done|by apply PushFront_outside| |by apply PushFront_holds|];
      intros y [->|?]%elem_of_cons; auto.
  - intros l e He. apply well_linked_Inv.
    apply (Inv_change σ m _ l (e :: σ l));
      [done|by apply PushBack_outside| |by apply PushBack_holds|].
    + intros y [->|?]%elem_of_cons; auto.
    + intros y [?|Hy%list_elem_of_singleton]%elem_of_app; subst; auto.
  - intros l o Hne.
    destruct (PushBackList_holds l o (σ l) (σ o) m Hne (Hall l) (Hall o))
      as (m' & Hrun & Hl & Ho & Hout).
    { intros x Hx Hx'. by apply (proj2 HI l o Hne x). }
    exists m'. split; [done|]. apply well_linked_Inv.
    apply (Inv_step2 σ m m' l o _ _ (σ l ++ σ o)); try done.
    + intros y l' Hl' Ho' Hin [Hy|Hy]%elem_of_app.
      * by apply (proj2 HI l' l Hl' y).
      * by apply (proj2 HI l' o Ho' y).
    + intros y _. apply not_elem_of_nil.
    + intros y l' Hl' Ho' [[Hy|Hy]%elem_of_app|Hy%elem_of_nil] Hin; [| |done].
      * by apply (proj2 HI l' l Hl' y).
      * by apply (proj2 HI l' o Ho' y).
  - intros l b e xs ys Hσ He. apply well_linked_Inv.
    pose proof (Hall l) as Hl. rewrite Hσ in Hl.
    apply (Inv_change σ m _ l (e :: σ l)).
    + done.
    + rewrite Hσ. by apply InsertAfter_outside.
    + intros y [->|?]%elem_of_cons; auto.
    + apply InsertAfter_holds; [done|]. rewrite <-Hσ. apply He.
    + rewrite Hσ. intros y Hy. rewrite !elem_of_app, !elem_of_cons in Hy.
      rewrite elem_of_app, elem_of_cons.
      destruct Hy as [?|[->|[->|?]]]; auto.
  - intros l a e xs ys Hσ He. apply well_linked_Inv.
    pose proof (Hall l) as Hl. rewrite Hσ in Hl.
    apply (Inv_change σ m _ l (e :: σ l)).
    + done.
    + rewrite Hσ. by apply InsertBefore_outside.
    + intros y [->|?]%elem_of_cons; auto.
    + apply InsertBefore_holds; [done|]. rewrite <-Hσ. apply He.
    + rewrite Hσ. intros y Hy. rewrite !elem_of_app, !elem_of_cons in Hy.
      rewrite elem_of_app, elem_of_cons.
      destruct Hy as [?|[->|[->|?]]]; auto.
  - intros l e xs ys Hσ. apply well_linked_Inv.
    pose proof (Hall l) as Hl. rewrite Hσ in Hl.
    apply (Inv_change σ m _ l (σ l)).
    + done.
    + rewrite Hσ. by apply Remove_outside.
    + auto.
    + by apply Remove_holds.
    + rewrite Hσ. intros y Hy. rewrite elem_of_app in Hy.
      rewrite elem_of_app, elem_of_cons. destruct Hy; auto.
Qed.

(** C8: for two lists A and B that share no packet, [PushBackList(B)] on
    A returns with A containing the packets of A followed by those of B,
    in order, and with B empty, whether or not A or B had packets. *)
Theorem PushBackList_appends_and_empties (l o : nat) (xs ys : list nat) (m : Memory) :
  l ≠ o → contains l xs m → contains o ys m → (∀ x, x ∈ xs → x ∉ ys) →
  ∃ m', PushBackList l o m = Done m' ∧
        contains l (xs ++ ys) m' ∧
        forward l (length (xs ++ ys)) m' = Some (xs ++ ys) ∧
        contains o [] m' ∧
        Empty o m' = true ∧ Front o m' = None ∧ Back o m' = None.
Proof.
  intros Hne Hl%contains_holds Ho%contains_holds Hd.
  destruct (PushBackList_holds l o xs ys m Hne Hl Ho Hd)
    as (m' & Hrun & Hl' & Ho' & _).
  exists m'. split; [done|].
  split; [by apply contains_holds|].
  split; [by apply holds_consistent|].
  split; [by apply contains_holds|].
  destruct Ho' as (_ & Hh & Ht & _). unfold Empty, Front, Back.
  rewrite Hh, Ht. done.
Qed.

(** C9: for a packet [e] of list [l], after [Remove(e)] the list contains
    the other packets in their order; the walk from [Front] visits just
    them and so never visits [e]. [Front] is the packet after [e] when
    [e] was the head and is unchanged otherwise; [Back] is the packet
    before [e] when [e] was the tail and is unchanged otherwise; when [e]
    was the only packet the list is empty. *)
Theorem Remove_unlinks_packet (l e : nat) (xs ys : list nat) (m : Memory) :
  contains l (xs ++ e :: ys) m →
  contains l (xs ++ ys) (Remove l e m) ∧
  forward l (length (xs ++ ys)) (Remove l e m) = Some (xs ++ ys) ∧
  (e ∉ xs ++ ys) ∧
  Front l (Remove l e m) = first_or None (xs ++ ys) ∧
  Back l (Remove l e m) = last_or None (xs ++ ys) ∧
  (xs = [] → Front l m = Some e ∧ Front l (Remove l e m) = Next e m) ∧
  (xs ≠ [] → Front l (Remove l e m) = Front l m) ∧
  (ys = [] → Back l m = Some e ∧ Back l (Remove l e m) = Prev e m) ∧
  (ys ≠ [] → Back l (Remove l e m) = Back l m) ∧
  (xs = [] → ys = [] → Empty l (Remove l e m) = true ∧
                       Front l (Remove l e m) = None ∧
                       Back l (Remove l e m) = None).
Proof.
  intros Hl%contains_holds.
  pose proof (Remove_holds l e xs ys m Hl) as Hl'.
  destruct Hl as (Hnd & Hh & Ht & Hs). destruct Hl' as (Hnd' & Hh' & Ht' & Hs').
  apply NoDup_mid in Hnd as (_ & _ & Hex & Hey & _).
  apply seg_mid in Hs as (_ & Hp & Hn & _).
  unfold Front, Back, Empty. rewrite Hh', Ht', Hh, Ht, Hp, Hn.
  split; [by apply contains_holds|].
  split; [by apply holds_consistent|].
  split; [by apply not_elem_of_app|].
  split; [done|]. split; [done|].
  split; [by intros ->|].
  split; [intros Hxs; rewrite !first_or_app; by apply first_or_nonempty|].
  split; [intros ->; by rewrite app_nil_r, last_or_snoc|].
  split.
  - intros Hys. rewrite !last_or_app, last_or_cons.
    destruct ys as [|y ys]; [done|]. by rewrite !last_or_cons.
  - by intros -> ->.
Qed.

(** The store of the scenario is well linked. *)
Lemma two_lists_contains_1 : contains 1 [10; 11; 12]%nat two_lists.
Proof.
  split; [apply (bool_decide_unpack _); vm_compute; exact I|].
  unfold consistent. do 3 (split; [vm_compute; reflexivity|]).
  vm_compute. reflexivity.
Qed.

Lemma two_lists_contains_2 : contains 2 [20; 21]%nat two_lists.
Proof.
  split; [apply (bool_decide_unpack _); vm_compute; exact I|].
  unfold consistent. do 3 (split; [vm_compute; reflexivity|]).
  vm_compute. reflexivity.
Qed.

Lemma two_lists_well_linked : well_linked two_lists_packets two_lists.
Proof.
  split.
  - intros l. unfold two_lists_packets.
    destruct (decide (l = 2%nat)) as [->|H2].
    { rewrite fn_lookup_insert. apply two_lists_contains_2. }
    rewrite fn_lookup_insert_ne by done.
    destruct (decide (l = 1%nat)) as [->|H1].
    { rewrite fn_lookup_insert. apply two_lists_contains_1. }
    rewrite fn_lookup_insert_ne by done.
    apply contains_holds. unfold holds, no_packets, two_lists.
    rewrite !(PushBack_other_head 2), !(PushBack_other_head 1) by done.
    rewrite !(PushBack_other_tail 2), !(PushBack_other_tail 1) by done.
    split; [apply NoDup_nil_2|]. unfold list_at, store0. simpl.
    rewrite lookup_total_empty. done.
  - assert (∀ k, two_lists_packets k
                 = if decide (k = 2%nat) then [20; 21]%nat
                   else if decide (k = 1%nat) then [10; 11; 12]%nat else []) as Hσ.
    { intros k. unfold two_lists_packets, no_packets.
      repeat case_decide; subst;
        rewrite ?fn_lookup_insert, ?fn_lookup_insert_ne by done;
        rewrite ?fn_lookup_insert, ?fn_lookup_insert_ne by done; done. }
    intros l1 l2 Hne. rewrite !Hσ.
    repeat case_decide; subst; try done; set_unfold; lia.
Qed.

(** The list given to [PushBackList] has to be another list: pushed onto
    itself, a list that had packets ends up empty. *)
Lemma PushBackList_onto_itself :
  ∃ m', PushBackList 1 1 two_lists = Done m' ∧
        Front 1 m' = None ∧ Back 1 m' = None.
Proof.
  eexists. split; [vm_compute; reflexivity|].
  split; [vm_compute; reflexivity|]. vm_compute. reflexivity.
Qed.

(** C7 on the store of the scenario: packet 11 is removed from list 1. *)
Lemma list_operations_keep_lists_well_linked_witness :
  well_linked (<[1%nat := [10; 12]%nat]> two_lists_packets) (Remove 1 11 two_lists).
Proof.
  destruct (list_operations_keep_lists_well_linked two_lists_packets two_lists
              two_lists_well_linked) as (_ & _ & _ & _ & _ & _ & Hremove).
  exact (Hremove 1%nat 11%nat [10%nat] [12%nat] eq_refl).
Defined.

(** C8 on the store of the scenario: list 2 is pushed onto list 1. *)
Lemma PushBackList_appends_and_empties_witness :
  ∃ m', PushBackList 1 2 two_lists = Done m' ∧
        forward 1 5 m' = Some [10; 11; 12; 20; 21]%nat ∧
        Empty 2 m' = true.
Proof.
  assert (1 ≠ 2)%nat as Hne by lia.
  assert (∀ x : nat, x ∈ [10; 11; 12]%nat → x ∉ [20; 21]%nat) as Hd
    by (set_unfold; lia).
  destruct (PushBackList_appends_and_empties 1 2 [10; 11; 12]%nat [20; 21]%nat
              two_lists Hne two_lists_contains_1 two_lists_contains_2 Hd)
    as (m' & Hrun & _ & Hwalk & _ & Hempty & _).
  exists m'. repeat split; assumption.
Defined.

(** C9 on the store of the scenario: packet 11 is removed from list 1. *)
Lemma Remove_unlinks_packet_witness :
  forward 1 2 (Remove 1 11 two_lists) = Some [10; 12]%nat ∧
  11%nat ∉ [10; 12]%nat.
Proof.
  destruct (Remove_unlinks_packet 1 11 [10%nat] [12%nat] two_lists
              two_lists_contains_1) as (_ & Hwalk & Hnot & _).
  split; assumption.
Defined.

End ListProperties.

(* ===================================================================== *)
(** ** More on [HandlePacket]                                             *)
(* ===================================================================== *)

Module HandlePacketProperties.
Import InboundFacts.

Section WithHeader.
Context {H : ARP} {L : ARPLayout H}.

(** The packet [HandlePacket] hands to the link endpoint. *)
Lemma valid_target v :
  IsValid v = true → returns (slice ProtocolAddressTarget v).
Proof.
  intros Hv. apply field_slice; [apply proto_target_field|by apply valid_size].
Qed.

Lemma valid_op v : IsValid v = true → returns (Op v).
Proof. intros Hv. by apply Op_returns, valid_size. Qed.

(** The Request branch, with the length of the rewritten view. *)
Lemma HandlePacket_request_length (e : endpoint) r v w tpa :
  IsValid v = true → slice ProtocolAddressTarget v = Done tpa →
  CheckLocalAddress (stack e) 0 tpa ≠ 0 → Op v = Done ARPRequest →
  ∃ reply,
    HandlePacket e r v w =
      match handler e with
      | Some f =>
          '(_, w2) ← f r reply
             (link_WritePacket r (NewPrependable (link_MaxHeaderLength (linkEP e)))
                reply ProtocolNumber w);
          Done (reply, w2)
      | None =>
          Done (reply,
                link_WritePacket r (NewPrependable (link_MaxHeaderLength (linkEP e)))
                  reply ProtocolNumber w)
      end ∧
    length reply = length v ∧
    Op reply = Done ARPReply ∧
    slice ProtocolAddressSender reply = Done tpa ∧
    slice ProtocolAddressTarget reply = Done tpa ∧
    (length (LocalLinkAddress r) = w_len HardwareAddressSender →
       slice HardwareAddressSender reply = Done (LocalLinkAddress r)).
Proof.
  intros Hv Ht Hn Hop.
  pose proof (valid_size v Hv) as Hlen.
  destruct (SetOp_returns ARPReply v reply_uint16 Hlen)
    as (v1 & Hset & Hlen1 & Hop1 & Hsame).
  set (v2 := copy HardwareAddressSender (LocalLinkAddress r) v1).
  set (v3 := copy ProtocolAddressSender tpa v2).
  assert (in_bounds HardwareAddressSender v1) as Hb1
    by (apply field_in_bounds; [apply hw_sender_field|lia]).
  assert (length v2 = length v) as Hlen2
    by (unfold v2; rewrite length_copy by done; lia).
  assert (in_bounds ProtocolAddressSender v2) as Hb2
    by (apply field_in_bounds; [apply proto_sender_field|lia]).
  assert (slice ProtocolAddressTarget v2 = Done tpa) as Ht2.
  { unfold v2. rewrite slice_copy_other by (done || apply hw_sender_proto_target).
    rewrite Hsame by apply proto_target_field. done. }
  assert (length tpa = w_len ProtocolAddressSender) as Htl
    by (rewrite proto_lengths; by eapply length_slice).
  exists v3. split; [|split; [|split; [|split; [|split]]]].
  - unfold HandlePacket. rewrite Hv, Ht. simpl. rewrite ?bind_Done.
    rewrite decide_False by done. rewrite Hop. rewrite ?bind_Done.
    rewrite decide_True by done. rewrite Hset. rewrite ?bind_Done.
    rewrite (slice_Done HardwareAddressSender v1) by done.
    rewrite ?bind_Done. fold v2.
    rewrite (slice_Done ProtocolAddressSender v2) by done. rewrite ?bind_Done.
    rewrite Ht2. rewrite ?bind_Done. fold v3. done.
  - unfold v3. rewrite length_copy by done. done.
  - unfold v3, v2. rewrite !Op_copy; try done.
    + apply hw_sender_field.
    + apply proto_sender_field.
  - unfold v3. by apply slice_copy_same.
  - unfold v3. rewrite slice_copy_other
      by (done || apply proto_sender_proto_target). done.
  - intros Hll. unfold v3.
    rewrite slice_copy_other
      by (done || apply disjoint_sym, hw_sender_proto_sender).
    unfold v2. by apply slice_copy_same.
Qed.

(** Any other operation code: the view goes to the handler as it came. *)
Lemma HandlePacket_other_op (e : endpoint) r v w tpa op :
  IsValid v = true → slice ProtocolAddressTarget v = Done tpa →
  CheckLocalAddress (stack e) 0 tpa ≠ 0 → Op v = Done op → op ≠ ARPRequest →
  HandlePacket e r v w =
    match handler e with
    | Some f => '(_, w2) ← f r v w; Done (v, w2)
    | None => Done (v, w)
    end.
Proof.
  intros Hv Ht Hn Hop Hne. unfold HandlePacket. rewrite Hv, Ht. simpl.
  rewrite ?bind_Done. rewrite decide_False by done. rewrite Hop.
  rewrite ?bind_Done. rewrite decide_False by done. done.
Qed.

(** X1: an endpoint without a secondary handler returns on every view,
    whatever its size and contents, and keeps its length. It hands a
    packet to the link endpoint exactly when the view is a valid frame
    whose target protocol address is local and whose operation code is
    Request: then that one packet, carrying the rewritten view, the route
    of the call, room for the link header and the ARP protocol number, is
    appended to what was sent. In every other case the view and the
    world are left as they were. The link-address cache and the waiter
    registry are never touched. *)
Theorem HandlePacket_sends_exactly_for_local_requests (e : endpoint) r v w :
  handler e = None →
  ∃ v' w',
    HandlePacket e r v w = Done (v', w') ∧
    length v' = length v ∧
    linkAddrCache w' = linkAddrCache w ∧ wait w' = wait w ∧
    ((IsValid v = true ∧
      (∃ tpa, slice ProtocolAddressTarget v = Done tpa ∧
              CheckLocalAddress (stack e) 0 tpa ≠ 0) ∧
      Op v = Done ARPRequest ∧
      sent w' = sent w ++
        [{| pk_route := r;
            pk_hdr := NewPrependable (link_MaxHeaderLength (linkEP e));
            pk_payload := v'; pk_protocol := ProtocolNumber |}])
     ∨
     (¬ (IsValid v = true ∧
         (∃ tpa, slice ProtocolAddressTarget v = Done tpa ∧
                 CheckLocalAddress (stack e) 0 tpa ≠ 0) ∧
         Op v = Done ARPRequest) ∧
      v' = v ∧ w' = w)).
Proof.
  intros Hh.
  destruct (IsValid v) eqn:Hv.
  2:{ exists v, w. rewrite HandlePacket_invalid by done.
      repeat split; try done. right. split; [|done]. by intros (? & _). }
  destruct (valid_target v Hv) as [tpa Ht].
  destruct (decide (CheckLocalAddress (stack e) 0 tpa = 0)) as [Hn|Hn].
  { exists v, w. rewrite (HandlePacket_not_local e r v w tpa) by done.
    repeat split; try done. right. split; [|done].
    intros (_ & (tpa' & Ht' & Hn') & _). congruence. }
  destruct (valid_op v Hv) as [op Hop].
  destruct (decide (op = ARPRequest)) as [->|Hne].
  - destruct (HandlePacket_request_length e r v w tpa Hv Ht Hn Hop)
      as (reply & Hrun & Hlen & _).
    rewrite Hh in Hrun. eexists reply, _. split; [exact Hrun|].
    repeat split; try done. left. repeat split; try done. by exists tpa.
  - exists v, w. rewrite (HandlePacket_other_op e r v w tpa op) by done.
    rewrite Hh. repeat split; try done. right. split; [|done].
    intros (_ & _ & Hop'). congruence.
Qed.

(** X2: what a valid Request for a local address is turned into, for
    every frame layout and whatever the secondary handler: the view is
    rewritten in place, keeping its length; the result has the operation
    code Reply, the address asked for as sender protocol address and still
    as target protocol address, and, when the link address of the route
    has the size of the field, that address as sender hardware address.
    It is handed to the link endpoint first and then, as rewritten, to
    the secondary handler if there is one. *)
Theorem HandlePacket_rewrites_request_in_place (e : endpoint) r v w tpa :
  IsValid v = true → slice ProtocolAddressTarget v = Done tpa →
  CheckLocalAddress (stack e) 0 tpa ≠ 0 → Op v = Done ARPRequest →
  ∃ reply,
    HandlePacket e r v w =
      match handler e with
      | Some f =>
          '(_, w2) ← f r reply
             (link_WritePacket r (NewPrependable (link_MaxHeaderLength (linkEP e)))
                reply ProtocolNumber w);
          Done (reply, w2)
      | None =>
          Done (reply,
                link_WritePacket r (NewPrependable (link_MaxHeaderLength (linkEP e)))
                  reply ProtocolNumber w)
      end ∧
    length reply = length v ∧
    Op reply = Done ARPReply ∧
    slice ProtocolAddressSender reply = Done tpa ∧
    slice ProtocolAddressTarget reply = Done tpa ∧
    (length (LocalLinkAddress r) = w_len HardwareAddressSender →
       slice HardwareAddressSender reply = Done (LocalLinkAddress r)).
Proof. apply HandlePacket_request_length. Qed.

(** X3: a valid frame for a local address whose operation code is not
    Request (a Reply, for one) is never answered: nothing is handed to the
    link endpoint by [HandlePacket] itself, the view is not rewritten, and
    the secondary handler, if there is one, is called once on the view as
    it came in; what the call of [HandlePacket] changes is what that
    handler changes. *)
Theorem HandlePacket_passes_other_frames_on (e : endpoint) r v w tpa op :
  IsValid v = true → slice ProtocolAddressTarget v = Done tpa →
  CheckLocalAddress (stack e) 0 tpa ≠ 0 → Op v = Done op → op ≠ ARPRequest →
  (handler e = None → HandlePacket e r v w = Done (v, w)) ∧
  (∀ f, handler e = Some f →
     (∀ b w2, f r v w = Done (b, w2) → HandlePacket e r v w = Done (v, w2)) ∧
     (∀ msg, f r v w = Panic msg → HandlePacket e r v w = Panic msg)).
Proof.
  intros Hv Ht Hn Hop Hne.
  rewrite (HandlePacket_other_op e r v w tpa op) by done. split.
  - by intros ->.
  - intros f ->. split.
    + intros b w2 ->. done.
    + intros msg ->. done.
Qed.

(** X4: the endpoint does not answer its own answer. When the view that
    [HandlePacket] has rewritten for a Request is handled again, nothing
    is sent and nothing changes. *)
Theorem HandlePacket_does_not_answer_its_reply (e : endpoint) r v w tpa :
  handler e = None →
  IsValid v = true → slice ProtocolAddressTarget v = Done tpa →
  CheckLocalAddress (stack e) 0 tpa ≠ 0 → Op v = Done ARPRequest →
  ∃ reply w1,
    HandlePacket e r v w = Done (reply, w1) ∧
    HandlePacket e r reply w1 = Done (reply, w1).
Proof.
  intros Hh Hv Ht Hn Hop.
  destruct (HandlePacket_request_length e r v w tpa Hv Ht Hn Hop)
    as (reply & Hrun & Hlen & Hop' & _ & Ht' & _).
  rewrite Hh in Hrun. eexists reply, _. split; [exact Hrun|].
  destruct (IsValid reply) eqn:Hv'.
  - rewrite (HandlePacket_other_op e r reply _ tpa ARPReply); try done.
    + by rewrite Hh.
    + intros Heq. by apply request_not_reply.
  - by apply HandlePacket_invalid.
Qed.

(** X5: with the handler of the lookup as secondary handler, a valid
    Request for a local address teaches the cache the host's own
    mapping. The handler sees the view after it has been rewritten, so
    what it records is the address asked for with the link address of the
    route; the packet for the link endpoint has been sent before. *)
Theorem HandlePacket_lookupHandler_learns_rewritten_sender
    (e : endpoint) (s : Stack) r v w tpa :
  handler e = Some (lookupHandler s) →
  IsValid v = true → slice ProtocolAddressTarget v = Done tpa →
  CheckLocalAddress (stack e) 0 tpa ≠ 0 → Op v = Done ARPRequest →
  length (LocalLinkAddress r) = w_len HardwareAddressSender →
  ∃ reply w2,
    HandlePacket e r v w = Done (reply, w2) ∧
    sent w2 = sent w ++
      [{| pk_route := r;
          pk_hdr := NewPrependable (link_MaxHeaderLength (linkEP e));
          pk_payload := reply; pk_protocol := ProtocolNumber |}] ∧
    linkAddrCache w2 =
      <[(CheckLocalAddress s 0 tpa, tpa) := LocalLinkAddress r]> (linkAddrCache w).
Proof.
  intros Hh Hv Ht Hn Hop Hll.
  destruct (HandlePacket_request_length e r v w tpa Hv Ht Hn Hop)
    as (reply & Hrun & Hlen & Hop' & Hs' & Ht' & Hh').
  rewrite Hh in Hrun. specialize (Hh' Hll).
  set (w1 := link_WritePacket r
               (NewPrependable (link_MaxHeaderLength (linkEP e)))
               reply ProtocolNumber w) in *.
  assert (ARPSize ≤ length reply)%nat as Hsize
    by (rewrite Hlen; by apply valid_size).
  destruct (LookupFacts.lookupHandler_runs s r reply w1 Hsize)
    as (tpa' & spa' & sha' & op' & Ht'' & Hs'' & Hh'' & Hop'' & Hhd).
  rewrite Ht' in Ht''. rewrite Hs' in Hs''. rewrite Hh' in Hh''.
  injection Ht'' as <-. injection Hs'' as <-. injection Hh'' as <-.
  rewrite Hhd in Hrun. simpl in Hrun. rewrite ?bind_Done in Hrun.
  eexists reply, _. split; [exact Hrun|].
  case_decide.
  - split; done.
  - destruct (LookupFacts.foldr_notify_frame tpa (LocalLinkAddress r)
                (map_to_list (wait w))
                (learnt s tpa tpa (LocalLinkAddress r) w1)) as [-> ->].
    split; done.
Qed.

End WithHeader.

End HandlePacketProperties.

(* ===================================================================== *)
(** ** More on the handler and the lookup function                        *)
(* ===================================================================== *)

Module LookupProperties.

(** One step of the loop over the registry. *)
Lemma notify_other addr linkAddr ch chAddr w :
  addr ≠ chAddr → notify addr linkAddr (ch, chAddr) w = w.
Proof. intros Hne. unfold notify. by rewrite decide_False. Qed.

Lemma notify_match_wait addr linkAddr ch w :
  wait (notify addr linkAddr (ch, addr) w) = delete ch (wait w).
Proof.
  unfold notify, try_send. rewrite decide_True by done. by case_decide.
Qed.

Lemma notify_match_handoff addr linkAddr ch w :
  handoff (notify addr linkAddr (ch, addr) w)
  = if decide (ch ∈ receiving w) then <[ch := linkAddr]> (handoff w)
    else handoff w.
Proof.
  unfold notify, try_send. rewrite decide_True by done. by case_decide.
Qed.

Lemma notify_match_receiving addr linkAddr ch w :
  receiving (notify addr linkAddr (ch, addr) w) = receiving w ∖ {[ch]}.
Proof.
  unfold notify, try_send. rewrite decide_True by done.
  case_decide as Hin; simpl; [done|].
  apply set_eq. intros x. rewrite elem_of_difference, elem_of_singleton.
  split; [|tauto]. intros Hx. split; [done|]. by intros ->.
Qed.

(** The whole loop, for any order in which the entries are visited. *)
Lemma foldr_notify_lookup addr linkAddr (entries : list (nat * list Z)) w :
  NoDup entries.*1 →
  (∀ ch, wait (foldr (notify addr linkAddr) w entries) !! ch
         = if decide ((ch, addr) ∈ entries) then None else wait w !! ch) ∧
  (∀ ch, handoff (foldr (notify addr linkAddr) w entries) !! ch
         = if decide ((ch, addr) ∈ entries ∧ ch ∈ receiving w)
           then Some linkAddr else handoff w !! ch) ∧
  (∀ ch, ch ∈ receiving (foldr (notify addr linkAddr) w entries)
         ↔ ch ∈ receiving w ∧ (ch, addr) ∉ entries).
Proof.
  induction entries as [|[c a] rest IH]; intros Hnd.
  - simpl. split; [|split]; intros ch.
    + done.
    + done.
    + split; [|by intros [? _]]. intros Hin. split; [done|apply not_elem_of_nil].
  - rewrite fmap_cons in Hnd. apply NoDup_cons in Hnd as [Hc Hnd]. simpl in Hc.
    destruct (IH Hnd) as (IHw & IHh & IHr). cbn [foldr].
    set (w' := foldr (notify addr linkAddr) w rest) in *.
    assert (∀ x, (c, x) ∉ rest) as Hfresh.
    { intros x Hin. apply Hc. apply list_elem_of_fmap. by exists (c, x). }
    destruct (decide (addr = a)) as [<-|Hne].
    + (* the entry is for this address *)
      assert (c ∈ receiving w' ↔ c ∈ receiving w) as Hrc.
      { rewrite IHr. split; [by intros [? _]|]. intros ?. split; [done|apply Hfresh]. }
      split; [|split]; intros ch.
      * rewrite notify_match_wait.
        destruct (decide (ch = c)) as [->|Hch].
        -- rewrite lookup_delete_eq. rewrite decide_True; [done|].
           apply list_elem_of_here.
        -- rewrite lookup_delete_ne by done. rewrite IHw.
           apply decide_ext. rewrite elem_of_cons. split; [by right|].
           intros [[= ->]|?]; done.
      * rewrite notify_match_handoff.
        destruct (decide (ch = c)) as [->|Hch].
        -- destruct (decide (c ∈ receiving w')) as [Hin|Hin].
           ++ rewrite lookup_insert_eq. rewrite decide_True; [done|].
              split; [apply list_elem_of_here|by apply Hrc].
           ++ rewrite IHh. rewrite !decide_False; [done|..].
              ** intros [_ ?]. by apply Hin, Hrc.
              ** intros [? _]. by eapply Hfresh.
        -- assert ((if decide (c ∈ receiving w')
                    then <[c := linkAddr]> (handoff w') else handoff w') !! ch
                   = handoff w' !! ch) as ->
             by (case_decide; [by rewrite lookup_insert_ne|done]).
           rewrite IHh. apply decide_ext. rewrite elem_of_cons.
           split; [intros [? ?]; split; [by right|done]|].
           intros [[[= ->]|?] ?]; done.
      * rewrite notify_match_receiving, elem_of_difference, elem_of_singleton.
        rewrite IHr, not_elem_of_cons. split.
        -- intros [[? ?] Hch]. repeat split; [done| |done]. intros [= ->]. done.
        -- intros [? [Hch ?]]. repeat split; [done..|]. intros ->. done.
    + (* the entry is for another address *)
      rewrite notify_other by done.
      split; [|split]; intros ch.
      * rewrite IHw. apply decide_ext. rewrite elem_of_cons.
        split; [by right|]. intros [[= -> ->]|?]; done.
      * rewrite IHh. apply decide_ext. rewrite elem_of_cons.
        split; [intros [? ?]; split; [by right|done]|].
        intros [[[= -> ->]|?] ?]; done.
      * rewrite IHr, not_elem_of_cons. split.
        -- intros [? ?]. repeat split; [done| |done]. intros [= -> ->]. done.
        -- intros [? [_ ?]]. done.
Qed.

Lemma notify_rest addr linkAddr entry w :
  nextChan (notify addr linkAddr entry w) = nextChan w ∧
  clock (notify addr linkAddr entry w) = clock w ∧
  stdout (notify addr linkAddr entry w) = stdout w.
Proof.
  destruct entry as [ch chAddr]. unfold notify, try_send.
  repeat case_decide; done.
Qed.

Lemma world_eq (w1 w2 : World) :
  sent w1 = sent w2 → linkAddrCache w1 = linkAddrCache w2 →
  wait w1 = wait w2 → nextChan w1 = nextChan w2 →
  receiving w1 = receiving w2 → handoff w1 = handoff w2 →
  clock w1 = clock w2 → stdout w1 = stdout w2 → w1 = w2.
Proof. destruct w1, w2. simpl. by intros -> -> -> -> -> -> -> ->. Qed.

(** Two entries with different channels can be visited in either order. *)
Lemma notify_commute addr linkAddr c1 a1 c2 a2 w :
  c1 ≠ c2 →
  notify addr linkAddr (c1, a1) (notify addr linkAddr (c2, a2) w)
  = notify addr linkAddr (c2, a2) (notify addr linkAddr (c1, a1) w).
Proof.
  intros Hne.
  destruct (decide (addr = a1)) as [<-|H1]; [|by rewrite !(notify_other _ _ c1)].
  destruct (decide (addr = a2)) as [<-|H2]; [|by rewrite !(notify_other _ _ c2)].
  apply world_eq.
  - by rewrite !(proj1 (LookupFacts.notify_frame _ _ _ _)).
  - by rewrite !(proj2 (LookupFacts.notify_frame _ _ _ _)).
  - rewrite !notify_match_wait. apply delete_delete.
  - by rewrite !(proj1 (notify_rest _ _ _ _)).
  - rewrite !notify_match_receiving. apply set_eq. intros x.
    rewrite !elem_of_difference. tauto.
  - rewrite !notify_match_handoff, !notify_match_receiving.
    assert (c1 ∈ receiving w ∖ {[c2]} ↔ c1 ∈ receiving w) as Hc1.
    { rewrite elem_of_difference, elem_of_singleton. tauto. }
    assert (c2 ∈ receiving w ∖ {[c1]} ↔ c2 ∈ receiving w) as Hc2.
    { rewrite elem_of_difference, elem_of_singleton.
      split; [tauto|]. intros ?. split; [done|]. by intros ->. }
    rewrite (decide_ext _ _ _ _ Hc1), (decide_ext _ _ _ _ Hc2).
    repeat case_decide; try done. by apply insert_insert_ne.
  - by rewrite !(proj1 (proj2 (notify_rest _ _ _ _))).
  - by rewrite !(proj2 (proj2 (notify_rest _ _ _ _))).
Qed.

(** Without waiters the handler leaves the registry and the channels
    alone. *)
Lemma foldl_Panic {A B} (f : A → B → outcome A) msg (l : list B) :
  foldl (λ acc x, a ← acc; f a x) (Panic msg) l = Panic msg.
Proof. induction l as [|x l IH]; [done|]. simpl. apply IH. Qed.

Section WithHeader.
Context {H : ARP}.

Lemma lookupHandler_empty_registry (s : Stack) r v w b w1 :
  wait w = ∅ → lookupHandler s r v w = Done (b, w1) →
  wait w1 = ∅ ∧ handoff w1 = handoff w ∧ nextChan w1 = nextChan w.
Proof.
  intros Hw. unfold lookupHandler.
  destruct (slice ProtocolAddressTarget v) as [tpa|]; [|discriminate].
  destruct (slice HardwareAddressSender v) as [sha|]; [|discriminate].
  destruct (slice ProtocolAddressSender v) as [spa|]; [|discriminate].
  simpl. destruct (Op v) as [op|]; [|discriminate]. simpl.
  rewrite Hw, map_to_list_empty. simpl.
  case_decide; intros [= <- <-]; done.
Qed.

Lemma frames_empty_registry (s : Stack) (frames : list (Route * list Z)) w w1 :
  wait w = ∅ →
  foldl (λ acc f, w ← acc; '(_, w) ← lookupHandler s f.1 f.2 w; Done w)
    (Done w) frames = Done w1 →
  wait w1 = ∅ ∧ handoff w1 = handoff w ∧ nextChan w1 = nextChan w.
Proof.
  revert w. induction frames as [|[r v] frames IH]; intros w Hw.
  - simpl. by intros [= <-].
  - simpl. destruct (lookupHandler s r v w) as [[b w2]|msg] eqn:Hrun; simpl.
    + destruct (lookupHandler_empty_registry s r v w b w2 Hw Hrun)
        as (Hw2 & Hh2 & Hn2).
      intros Hrest. destruct (IH w2 Hw2 Hrest) as (? & ? & ?).
      repeat split; congruence.
    + intros Hrest.
      rewrite (foldl_Panic (λ w f, '(_, w) ← lookupHandler s f.1 f.2 w; Done w))
        in Hrest. discriminate.
Qed.

End WithHeader.

Section WithLayout.
Context {H : ARP} {L : ARPLayout H}.

(** What the handler records. *)
Lemma lookupHandler_cache (s : Stack) r v w :
  (MinimumPacketSize ≤ length v)%nat →
  ∃ tpa spa sha w',
    slice ProtocolAddressTarget v = Done tpa ∧
    slice ProtocolAddressSender v = Done spa ∧
    slice HardwareAddressSender v = Done sha ∧
    lookupHandler s r v w = Done (false, w') ∧
    linkAddrCache w' =
      <[(CheckLocalAddress s 0 tpa, spa) := sha]> (linkAddrCache w).
Proof.
  intros Hlen.
  destruct (LookupFacts.lookupHandler_runs s r v w Hlen)
    as (tpa & spa & sha & op & Ht & Hs & Hh & Hop & Hrun).
  exists tpa, spa, sha. eexists. repeat (split; [done|]).
  case_decide; [done|].
  by destruct (LookupFacts.foldr_notify_frame spa sha (map_to_list (wait w))
                 (learnt s tpa spa sha w)) as [_ ->].
Qed.

(** The handler on a Reply, entry by entry. *)
Lemma lookupHandler_reply_runs (s : Stack) r v w :
  (MinimumPacketSize ≤ length v)%nat → Op v = Done ARPReply →
  ∃ spa sha w',
    slice ProtocolAddressSender v = Done spa ∧
    slice HardwareAddressSender v = Done sha ∧
    lookupHandler s r v w = Done (false, w') ∧
    (∀ ch, wait w' !! ch
           = if decide (wait w !! ch = Some spa) then None else wait w !! ch) ∧
    (∀ ch, handoff w' !! ch
           = if decide (wait w !! ch = Some spa ∧ ch ∈ receiving w)
             then Some sha else handoff w !! ch) ∧
    (∀ ch, ch ∈ receiving w' ↔ ch ∈ receiving w ∧ wait w !! ch ≠ Some spa).
Proof.
  intros Hlen Hop.
  destruct (LookupFacts.lookupHandler_runs s r v w Hlen)
    as (tpa & spa & sha & op & Ht & Hs & Hh & Hop' & Hrun).
  rewrite Hop in Hop'. injection Hop' as <-.
  rewrite decide_False in Hrun by (by intros ?).
  exists spa, sha. eexists. split; [done|]. split; [done|]. split; [exact Hrun|].
  destruct (foldr_notify_lookup spa sha (map_to_list (wait w))
              (learnt s tpa spa sha w) (NoDup_fst_map_to_list _))
    as (Hw & Hho & Hr).
  split; [|split]; intros ch.
  - rewrite Hw. apply decide_ext. apply elem_of_map_to_list.
  - rewrite Hho. apply decide_ext. by rewrite elem_of_map_to_list.
  - rewrite Hr. by rewrite elem_of_map_to_list.
Qed.

(** X6: a Reply notifies every waiter for its sender, and no other. After
    the handler has run on a Reply frame, the registry has lost exactly
    the entries whose address is the sender protocol address of the
    frame; each of those channels on which a goroutine was blocked has
    been handed the sender hardware address and is no longer waited on;
    every other entry, channel and pending value is as before. *)
Theorem lookupHandler_reply_notifies_waiters (s : Stack) r v w :
  (MinimumPacketSize ≤ length v)%nat → Op v = Done ARPReply →
  ∃ spa sha w',
    slice ProtocolAddressSender v = Done spa ∧
    slice HardwareAddressSender v = Done sha ∧
    lookupHandler s r v w = Done (false, w') ∧
    (∀ ch, wait w' !! ch
           = if decide (wait w !! ch = Some spa) then None else wait w !! ch) ∧
    (∀ ch, handoff w' !! ch
           = if decide (wait w !! ch = Some spa ∧ ch ∈ receiving w)
             then Some sha else handoff w !! ch) ∧
    (∀ ch, ch ∈ receiving w' ↔ ch ∈ receiving w ∧ wait w !! ch ≠ Some spa).
Proof. apply lookupHandler_reply_runs. Qed.

End WithLayout.

(** X7: the order in which [range] visits the registry does not matter.
    For every order [entries] of the entries of the registry, running the
    body of the handler's loop over them in that order ends in the same
    world. *)
Theorem notify_loop_order_irrelevant addr linkAddr
    (entries : list (nat * list Z)) (w : World) :
  entries ≡ₚ map_to_list (wait w) →
  foldr (notify addr linkAddr) w entries
  = foldr (notify addr linkAddr) w (map_to_list (wait w)).
Proof.
  intros Hperm.
  apply (foldr_permutation eq); [by intros x ? ? ->| |done].
  intros j1 [c1 a1] j2 [c2 a2] b Hj H1 H2. apply notify_commute.
  intros ->. apply Hj.
  assert (NoDup entries.*1) as Hnd
    by (rewrite Hperm; apply NoDup_fst_map_to_list).
  apply (NoDup_lookup _ j1 j2 c2 Hnd);
    rewrite list_lookup_fmap; [by rewrite H1|by rewrite H2].
Qed.

Section WithLayout2.
Context {H : ARP} {L : ARPLayout H}.

(** X8: what a waiter gets from a Reply. Take a pending call whose
    channel is in the registry under the sender protocol address of a
    Reply frame. After the handler has run on the frame the entry is gone.
    If the caller was blocked on the channel, its [select] then leaves
    with the sender hardware address of the frame and no error. If it was
    not, the notification is dropped: nothing is pending on the channel
    that was not pending before. *)
Theorem reply_reaches_registered_waiter (s : Stack) r v w (p : Pending) spa sha :
  (MinimumPacketSize ≤ length v)%nat → Op v = Done ARPReply →
  slice ProtocolAddressSender v = Done spa →
  slice HardwareAddressSender v = Done sha →
  wait w !! pd_chan p = Some spa →
  ∃ w',
    lookupHandler s r v w = Done (false, w') ∧
    wait w' !! pd_chan p = None ∧
    (pd_chan p ∈ receiving w →
       ∃ w'', resolve_leave p w' = ((sha, None), w'') ∧ wait w'' = wait w') ∧
    (pd_chan p ∉ receiving w →
       handoff w' !! pd_chan p = handoff w !! pd_chan p).
Proof.
  intros Hlen Hop Hs Hh Hreg.
  destruct (lookupHandler_reply_runs s r v w Hlen Hop)
    as (spa' & sha' & w' & Hs' & Hh' & Hrun & Hw & Hho & Hr).
  rewrite Hs in Hs'. rewrite Hh in Hh'. injection Hs' as <-. injection Hh' as <-.
  exists w'. split; [done|]. split; [|split].
  - rewrite Hw. by rewrite decide_True.
  - intros Hin. eexists. unfold resolve_leave. rewrite Hho.
    rewrite decide_True by done. done.
  - intros Hin. rewrite Hho. rewrite decide_False; [done|]. by intros [_ ?].
Qed.

(** X10: a Reply that is handled a second time notifies nobody. After the
    handler has run on a Reply frame, running it on the same frame again
    leaves the registry, the channels, the cache and the packets sent as
    the first run left them. *)
Theorem lookupHandler_reply_twice (s : Stack) r v w :
  (MinimumPacketSize ≤ length v)%nat → Op v = Done ARPReply →
  ∃ w1 w2,
    lookupHandler s r v w = Done (false, w1) ∧
    lookupHandler s r v w1 = Done (false, w2) ∧
    wait w2 = wait w1 ∧ handoff w2 = handoff w1 ∧ receiving w2 = receiving w1 ∧
    linkAddrCache w2 = linkAddrCache w1 ∧ sent w2 = sent w1.
Proof.
  intros Hlen Hop.
  destruct (lookupHandler_reply_runs s r v w Hlen Hop)
    as (spa & sha & w1 & Hs & Hh & Hrun1 & Hw1 & Hh1 & Hr1).
  destruct (lookupHandler_reply_runs s r v w1 Hlen Hop)
    as (spa' & sha' & w2 & Hs' & Hh' & Hrun2 & Hw2 & Hh2 & Hr2).
  rewrite Hs in Hs'. rewrite Hh in Hh'. injection Hs' as <-. injection Hh' as <-.
  assert (∀ ch, wait w1 !! ch ≠ Some spa) as Hgone.
  { intros ch. rewrite Hw1. case_decide; [done|]. done. }
  exists w1, w2. split; [done|]. split; [done|].
  split; [|split; [|split; [|split]]].
  - apply map_eq. intros ch. rewrite Hw2. by rewrite decide_False.
  - apply map_eq. intros ch. rewrite Hh2. rewrite decide_False; [done|].
    intros [? _]. by eapply Hgone.
  - apply set_eq. intros ch. rewrite Hr2. split; [by intros [? _]|].
    intros ?. split; [done|apply Hgone].
  - destruct (lookupHandler_cache s r v w Hlen)
      as (tpa & spa1 & sha1 & w1' & Ht1 & Hs1 & Hha1 & Hrun1' & Hc1).
    destruct (lookupHandler_cache s r v w1 Hlen)
      as (tpa2 & spa2 & sha2 & w2' & Ht2 & Hs2 & Hha2 & Hrun2' & Hc2).
    rewrite Hrun1 in Hrun1'. rewrite Hrun2 in Hrun2'.
    injection Hrun1' as <-. injection Hrun2' as <-.
    rewrite Ht1 in Ht2. rewrite Hs1 in Hs2. rewrite Hha1 in Hha2.
    injection Ht2 as <-. injection Hs2 as <-. injection Hha2 as <-.
    rewrite Hc2, Hc1. apply insert_insert_eq.
  - rewrite (LookupFacts.lookupHandler_sent s r v w1 false w2 Hrun2). done.
Qed.

(** X9: the lookup function of [NewLinkAddressLookup] never returns a link
    address. Starting from an empty registry, as [NewLinkAddressLookup]
    creates it, and whatever frames reach the handler while the call is
    blocked, a call that returns returns the timeout error, and the
    registry is empty again. *)
Theorem lookup_always_times_out (s : Stack) (frames : list (Route * list Z))
    (addr : list Z) (w : World) res w' :
  wait w = ∅ → handoff w !! nextChan w = None →
  resolve (lookupHandler s) frames addr w = Done (res, w') →
  res = ([], Some ErrTimeout) ∧ wait w' = ∅.
Proof.
  intros Hw Hh. unfold resolve. simpl.
  set (w0 := with_receiving _ _).
  destruct (foldl _ (Done w0) frames) as [w1|msg] eqn:Hfr; [|discriminate].
  destruct (frames_empty_registry s frames w0 w1 Hw Hfr) as (Hw1 & Hh1 & _).
  simpl. unfold resolve_leave. simpl. rewrite Hh1. simpl. rewrite Hh.
  intros [= <- <-]. split; [done|]. simpl. rewrite Hw1. apply delete_empty.
Qed.

End WithLayout2.

End LookupProperties.

(* ===================================================================== *)
(** ** More on the packet list                                            *)
(* ===================================================================== *)

Module PacketListProperties.
Import PacketList StoreFacts ListFacts.

(** The last packet of a list has no successor, the first no
    predecessor. *)
Lemma holds_back_next l xs m t :
  holds l xs m → tail (list_at l m) = Some t → Next t m = None.
Proof.
  intros (_ & _ & Ht & Hs) Heq. rewrite Ht in Heq.
  destruct xs as [|x xs _] using rev_ind; [discriminate|].
  rewrite last_or_snoc in Heq. injection Heq as ->.
  by apply seg_snoc in Hs as (_ & _ & ?).
Qed.

Lemma holds_front_prev l xs m h :
  holds l xs m → head (list_at l m) = Some h → Prev h m = None.
Proof.
  intros (_ & Hh & _ & Hs) Heq. rewrite Hh in Heq.
  destruct xs as [|x xs]; [discriminate|]. injection Heq as ->.
  by destruct Hs as (? & _).
Qed.

(** Inside a segment that ends before [e], every packet has a successor
    in the segment or [e]. *)
Lemma seg_next_in m b us e y :
  seg m b us (Some e) → y ∈ us → ∃ z, Next y m = Some z ∧ z ∈ us ++ [e].
Proof.
  revert b. induction us as [|u us IH]; intros b Hs Hy.
  - by apply elem_of_nil in Hy.
  - destruct Hs as (_ & Hn & Hs). apply elem_of_cons in Hy as [->|Hy].
    + rewrite Hn. destruct us as [|u' us]; simpl.
      * exists e. split; [done|]. apply list_elem_of_further, list_elem_of_here.
      * exists u'. split; [done|]. apply list_elem_of_further, list_elem_of_here.
    + destruct (IH _ Hs Hy) as (z & Hz & Hin). exists z. split; [done|].
      by apply list_elem_of_further.
Qed.

(** A walk that stays among packets with a successor does not end. *)
Lemma walk_trapped step m (S : list nat) :
  (∀ y, y ∈ S → ∃ z, step y m = Some z ∧ z ∈ S) →
  ∀ fuel y, y ∈ S → walk step m fuel (Some y) = None.
Proof.
  intros Htrap. induction fuel as [|fuel IH]; intros y Hy; [done|]. simpl.
  destruct (Htrap y Hy) as (z & -> & Hz). by rewrite (IH z Hz).
Qed.

(** Which links and headers each operation may write. *)
Lemma Reset_local l m y l' :
  Next y (Reset l m) = Next y m ∧ Prev y (Reset l m) = Prev y m ∧
  (l' ≠ l → Front l' (Reset l m) = Front l' m ∧ Back l' (Reset l m) = Back l' m).
Proof. unfold Reset, Front, Back. cbv zeta. repeat split; by store. Qed.

Lemma PushFront_local l e m y l' :
  (y ≠ e → Next y (PushFront l e m) = Next y m) ∧
  (y ≠ e → Front l m ≠ Some y → Prev y (PushFront l e m) = Prev y m) ∧
  (l' ≠ l → Front l' (PushFront l e m) = Front l' m ∧
            Back l' (PushFront l e m) = Back l' m).
Proof.
  unfold PushFront, Front, Back. cbv zeta. autorewrite with store.
  destruct (head (list_at l m)) as [h|]; repeat split; intros; by store.
Qed.

Lemma PushBack_local l e m y l' :
  (y ≠ e → Prev y (PushBack l e m) = Prev y m) ∧
  (y ≠ e → Back l m ≠ Some y → Next y (PushBack l e m) = Next y m) ∧
  (l' ≠ l → Front l' (PushBack l e m) = Front l' m ∧
            Back l' (PushBack l e m) = Back l' m).
Proof.
  unfold PushBack, Front, Back. cbv zeta. autorewrite with store.
  destruct (tail (list_at l m)) as [t|]; repeat split; intros; by store.
Qed.

Lemma InsertAfter_local l b e m y l' :
  (y ≠ e → y ≠ b → Next y (InsertAfter l b e m) = Next y m) ∧
  (y ≠ e → Next b m ≠ Some y → Prev y (InsertAfter l b e m) = Prev y m) ∧
  (l' ≠ l → Front l' (InsertAfter l b e m) = Front l' m ∧
            Back l' (InsertAfter l b e m) = Back l' m).
Proof.
  unfold InsertAfter, Front, Back. cbv zeta.
  destruct (Next b m) as [a|]; repeat split; intros; by store.
Qed.

Lemma InsertBefore_local l a e m y l' :
  (y ≠ e → y ≠ a → Prev y (InsertBefore l a e m) = Prev y m) ∧
  (y ≠ e → Prev a m ≠ Some y → Next y (InsertBefore l a e m) = Next y m) ∧
  (l' ≠ l → Front l' (InsertBefore l a e m) = Front l' m ∧
            Back l' (InsertBefore l a e m) = Back l' m).
Proof.
  unfold InsertBefore, Front, Back. cbv zeta.
  destruct (Prev a m) as [b|]; repeat split; intros; by store.
Qed.

Lemma Remove_local l e m y l' :
  (Prev e m ≠ Some y → Next y (Remove l e m) = Next y m) ∧
  (Next e m ≠ Some y → Prev y (Remove l e m) = Prev y m) ∧
  (l' ≠ l → Front l' (Remove l e m) = Front l' m ∧
            Back l' (Remove l e m) = Back l' m).
Proof.
  unfold Remove, Front, Back. cbv zeta.
  destruct (Prev e m) as [p|]; destruct (Next e m) as [n|];
    repeat split; intros; by store.
Qed.

Lemma PushBackList_local l o m m' y l' :
  PushBackList l o m = Done m' →
  (Back l m ≠ Some y → Next y m' = Next y m) ∧
  (Front o m ≠ Some y → Prev y m' = Prev y m) ∧
  (l' ≠ l → l' ≠ o → Front l' m' = Front l' m ∧ Back l' m' = Back l' m).
Proof.
  unfold PushBackList, Front, Back.
  destruct (head (list_at l m)) as [h|]; simpl.
  - destruct (head (list_at o m)) as [oh|]; simpl.
    + destruct (tail (list_at l m)) as [lt|]; simpl; [|discriminate].
      intros [= <-]. repeat split; intros; by store.
    + intros [= <-]. repeat split; intros; by store.
  - intros [= <-]. repeat split; intros; by store.
Qed.


(** X12: removing a packet right after inserting it gives the list back.
    For a list that contains [xs] and a packet [e] that is not in it,
    [Remove(e)] after [PushFront(e)], after [PushBack(e)], or after
    [InsertAfter] or [InsertBefore] of [e] at any packet of the list,
    leaves the list containing [xs] again. *)
Theorem insert_then_Remove_restores (l e : nat) (xs : list nat) (m : Memory) :
  contains l xs m → e ∉ xs →
  contains l xs (Remove l e (PushFront l e m)) ∧
  contains l xs (Remove l e (PushBack l e m)) ∧
  (∀ us b vs, xs = us ++ b :: vs →
     contains l xs (Remove l e (InsertAfter l b e m)) ∧
     contains l xs (Remove l e (InsertBefore l b e m))).
Proof.
  intros Hl%contains_holds He. split; [|split].
  - apply contains_holds.
    apply (Remove_holds l e [] xs). by apply PushFront_holds.
  - apply contains_holds.
    pose proof (Remove_holds l e xs [] (PushBack l e m)) as Hr.
    rewrite app_nil_r in Hr. apply Hr. by apply PushBack_holds.
  - intros us b vs ->. split; apply contains_holds.
    + pose proof (Remove_holds l e (us ++ [b]) vs (InsertAfter l b e m)) as Hr.
      rewrite <-!app_assoc in Hr. simpl in Hr. apply Hr.
      by apply InsertAfter_holds.
    + apply (Remove_holds l e us (b :: vs)). by apply InsertBefore_holds.
Qed.

(** X13: a packet that has been removed still points into the list, so a
    loop that removes the packet it is visiting can go on from it. For a
    list containing [xs ++ e :: ys], [Remove(e)] leaves the links of [e]
    as they were, and walking on from [e.Next()] in the store after the
    removal visits exactly the packets [ys] that followed [e]. *)
Theorem Remove_keeps_links_of_removed (l e : nat) (xs ys : list nat) (m : Memory) :
  contains l (xs ++ e :: ys) m →
  Next e (Remove l e m) = Next e m ∧
  Prev e (Remove l e m) = Prev e m ∧
  walk Next (Remove l e m) (length ys) (Next e (Remove l e m)) = Some ys ∧
  walk Prev (Remove l e m) (length xs) (Prev e (Remove l e m)) = Some (reverse xs).
Proof.
  intros Hl%contains_holds.
  pose proof (Remove_holds l e xs ys m Hl) as (_ & _ & _ & Hs').
  destruct Hl as (Hnd & Hh & Ht & Hs).
  apply NoDup_mid in Hnd as (_ & _ & Hex & Hey & _).
  apply seg_mid in Hs as (_ & Hp & Hn & _).
  apply seg_app in Hs' as (Hs1 & Hs2).
  assert (Next e (Remove l e m) = Next e m) as HN.
  { apply Remove_local; [exact l|]. rewrite Hp. intros Heq.
    by destruct (last_or_elem _ _ _ Heq). }
  assert (Prev e (Remove l e m) = Prev e m) as HP.
  { apply Remove_local; [exact l|]. rewrite Hn. intros Heq.
    by destruct (first_or_elem _ _ _ Heq). }
  split; [done|]. split; [done|]. split.
  - rewrite HN, Hn. by eapply walk_forward.
  - rewrite HP, Hp. by eapply walk_backward.
Qed.

(** X14: every operation writes only next to where it works. Whatever
    the store, [Reset] writes no link; [PushFront] writes the links of
    the new packet and the back link of the old front; [PushBack] those
    of the new packet and the forward link of the old back; [InsertAfter]
    and [InsertBefore] those of the new packet, one link of the anchor and
    one of its old neighbour; [Remove] the forward link of the packet
    before and the back link of the packet after; [PushBackList] the
    forward link of the back of the first list and the back link of the
    front of the second. No header of another list is written. *)
Theorem operations_write_locally (m : Memory) (y l' : nat) :
  (∀ l, Next y (Reset l m) = Next y m ∧ Prev y (Reset l m) = Prev y m ∧
        (l' ≠ l → Front l' (Reset l m) = Front l' m ∧
                  Back l' (Reset l m) = Back l' m)) ∧
  (∀ l e,
     (y ≠ e → Next y (PushFront l e m) = Next y m) ∧
     (y ≠ e → Front l m ≠ Some y → Prev y (PushFront l e m) = Prev y m) ∧
     (l' ≠ l → Front l' (PushFront l e m) = Front l' m ∧
               Back l' (PushFront l e m) = Back l' m)) ∧
  (∀ l e,
     (y ≠ e → Prev y (PushBack l e m) = Prev y m) ∧
     (y ≠ e → Back l m ≠ Some y → Next y (PushBack l e m) = Next y m) ∧
     (l' ≠ l → Front l' (PushBack l e m) = Front l' m ∧
               Back l' (PushBack l e m) = Back l' m)) ∧
  (∀ l b e,
     (y ≠ e → y ≠ b → Next y (InsertAfter l b e m) = Next y m) ∧
     (y ≠ e → Next b m ≠ Some y → Prev y (InsertAfter l b e m) = Prev y m) ∧
     (l' ≠ l → Front l' (InsertAfter l b e m) = Front l' m ∧
               Back l' (InsertAfter l b e m) = Back l' m)) ∧
  (∀ l a e,
     (y ≠ e → y ≠ a → Prev y (InsertBefore l a e m) = Prev y m) ∧
     (y ≠ e → Prev a m ≠ Some y → Next y (InsertBefore l a e m) = Next y m) ∧
     (l' ≠ l → Front l' (InsertBefore l a e m) = Front l' m ∧
               Back l' (InsertBefore l a e m) = Back l' m)) ∧
  (∀ l e,
     (Prev e m ≠ Some y → Next y (Remove l e m) = Next y m) ∧
     (Next e m ≠ Some y → Prev y (Remove l e m) = Prev y m) ∧
     (l' ≠ l → Front l' (Remove l e m) = Front l' m ∧
               Back l' (Remove l e m) = Back l' m)) ∧
  (∀ l o m', PushBackList l o m = Done m' →
     (Back l m ≠ Some y → Next y m' = Next y m) ∧
     (Front o m ≠ Some y → Prev y m' = Prev y m) ∧
     (l' ≠ l → l' ≠ o → Front l' m' = Front l' m ∧ Back l' m' = Back l' m)).
Proof.
  split; [intros; apply Reset_local|].
  split; [intros; apply PushFront_local|].
  split; [intros; apply PushBack_local|].
  split; [intros; apply InsertAfter_local|].
  split; [intros; apply InsertBefore_local|].
  split; [intros; apply Remove_local|].
  intros l o m'. apply PushBackList_local.
Qed.

(** X15: inserting at an end is pushing. In a list that contains [xs],
    [InsertAfter] at the back packet leaves the same store as [PushBack],
    and [InsertBefore] at the front packet the same store as
    [PushFront]. *)
Theorem insert_at_an_end_is_push (l e : nat) (xs : list nat) (m : Memory) :
  contains l xs m →
  (∀ t, Back l m = Some t → InsertAfter l t e m = PushBack l e m) ∧
  (∀ h, Front l m = Some h → InsertBefore l h e m = PushFront l e m).
Proof.
  intros Hl%contains_holds. unfold Back, Front. split.
  - intros t Ht. pose proof (holds_back_next l xs m t Hl Ht) as Hn.
    unfold InsertAfter, PushBack. cbv zeta. autorewrite with store.
    by rewrite Hn, Ht.
  - intros h Hh. pose proof (holds_front_prev l xs m h Hl Hh) as Hp.
    unfold InsertBefore, PushFront. cbv zeta. autorewrite with store.
    by rewrite Hp, Hh.
Qed.

(** X16: a packet must not be pushed twice. If [PushFront] is given a
    packet that is already in the list, the list gets a cycle: the loop
    [for e := l.Front(); e != nil; e = e.Next()] does not come to an end,
    whatever the number of steps it is given. *)
Theorem PushFront_of_member_makes_cycle (l e : nat) (us vs : list nat) (m : Memory) :
  contains l (us ++ e :: vs) m →
  ∀ fuel, forward l fuel (PushFront l e m) = None.
Proof.
  intros (Hnd & Hh & Ht & Hs)%contains_holds fuel.
  apply NoDup_mid in Hnd as (_ & _ & Heu & _ & _).
  apply seg_mid in Hs as (Hs & _).
  assert (Front l (PushFront l e m) = Some e) as HF.
  { unfold Front, PushFront. cbv zeta. by store. }
  assert (Next e (PushFront l e m) = first_or None (us ++ e :: vs)) as HN.
  { rewrite <-Hh. unfold PushFront. cbv zeta. autorewrite with store.
    destruct (head (list_at l m)); by store. }
  unfold forward. rewrite HF.
  apply (walk_trapped Next _ (us ++ [e])).
  - intros y [Hy|Hy%list_elem_of_singleton]%elem_of_app.
    + assert (y ≠ e) by (by intros ->).
      rewrite (proj1 (PushFront_local l e m y l)) by done.
      by apply (seg_next_in m None).
    + subst y. rewrite HN. rewrite first_or_app. simpl.
      destruct us as [|u us]; simpl.
      * exists e. split; [done|]. apply list_elem_of_here.
      * exists u. split; [done|]. apply list_elem_of_here.
  - apply elem_of_app. right. apply list_elem_of_here.
Qed.

End PacketListProperties.

(* ===================================================================== *)
(** ** The further properties on the frames and stores of the scenario    *)
(* ===================================================================== *)

Module MoreExamples.
Import PacketList HandlePacketProperties LookupProperties PacketListProperties.

#[local] Existing Instance EthernetIPv4.

Lemma request_frame_target :
  slice ProtocolAddressTarget request_frame = Done [192; 168; 1; 1].
Proof. vm_compute. reflexivity. Qed.

Lemma reply_frame_target :
  slice ProtocolAddressTarget reply_frame = Done [192; 168; 1; 1].
Proof. vm_compute. reflexivity. Qed.

Lemma host_owns_target :
  CheckLocalAddress host_stack 0 [192; 168; 1; 1] ≠ 0.
Proof. vm_compute. discriminate. Qed.

(** X1 on the Request of the scenario. *)
Lemma HandlePacket_sends_exactly_for_local_requests_witness :
  ∃ v' w', HandlePacket host_endpoint host_route request_frame world0
             = Done (v', w') ∧
           length v' = length request_frame ∧ wait w' = wait world0.
Proof.
  destruct (HandlePacket_sends_exactly_for_local_requests
              host_endpoint host_route request_frame world0 eq_refl)
    as (v' & w' & Hrun & Hlen & _ & Hwait & _).
  exists v', w'. repeat split; assumption.
Defined.

(** X2 on the Request of the scenario. *)
Lemma HandlePacket_rewrites_request_in_place_witness :
  ∃ reply, Op reply = Done ARPReply ∧
           slice ProtocolAddressSender reply = Done [192; 168; 1; 1] ∧
           slice ProtocolAddressTarget reply = Done [192; 168; 1; 1].
Proof.
  assert (IsValid request_frame = true) as Hv by (vm_compute; reflexivity).
  assert (Op request_frame = Done ARPRequest) as Hop by (vm_compute; reflexivity).
  destruct (HandlePacket_rewrites_request_in_place host_endpoint host_route
              request_frame world0 [192; 168; 1; 1] Hv request_frame_target
              host_owns_target Hop)
    as (reply & _ & _ & Hop' & Hs & Ht & _).
  exists reply. repeat split; assumption.
Defined.

(** X3 on the Reply of the scenario. *)
Lemma HandlePacket_passes_other_frames_on_witness :
  HandlePacket host_endpoint host_route reply_frame world0
  = Done (reply_frame, world0).
Proof.
  assert (IsValid reply_frame = true) as Hv by (vm_compute; reflexivity).
  assert (Op reply_frame = Done 2) as Hop by (vm_compute; reflexivity).
  assert (2 ≠ ARPRequest) as Hne by (vm_compute; discriminate).
  exact (proj1 (HandlePacket_passes_other_frames_on host_endpoint host_route
                  reply_frame world0 [192; 168; 1; 1] 2 Hv reply_frame_target
                  host_owns_target Hop Hne) eq_refl).
Defined.

(** X4 on the Request of the scenario. *)
Lemma HandlePacket_does_not_answer_its_reply_witness :
  ∃ reply w1,
    HandlePacket host_endpoint host_route request_frame world0
      = Done (reply, w1) ∧
    HandlePacket host_endpoint host_route reply w1 = Done (reply, w1).
Proof.
  assert (IsValid request_frame = true) as Hv by (vm_compute; reflexivity).
  assert (Op request_frame = Done ARPRequest) as Hop by (vm_compute; reflexivity).
  exact (HandlePacket_does_not_answer_its_reply host_endpoint host_route
           request_frame world0 [192; 168; 1; 1] eq_refl Hv request_frame_target
           host_owns_target Hop).
Defined.

(** X5 on the Request of the scenario: the cache learns 192.168.1.1 at
    the host's own link address. *)
Lemma HandlePacket_lookupHandler_learns_rewritten_sender_witness :
  ∃ reply w2,
    HandlePacket learning_endpoint host_route request_frame world0
      = Done (reply, w2) ∧
    linkAddrCache w2 !! (1, [192; 168; 1; 1])
      = Some (LocalLinkAddress host_route).
Proof.
  assert (IsValid request_frame = true) as Hv by (vm_compute; reflexivity).
  assert (Op request_frame = Done ARPRequest) as Hop by (vm_compute; reflexivity).
  assert (length (LocalLinkAddress host_route) = w_len HardwareAddressSender)
    as Hll by reflexivity.
  destruct (HandlePacket_lookupHandler_learns_rewritten_sender
              learning_endpoint host_stack host_route request_frame world0
              [192; 168; 1; 1] eq_refl Hv request_frame_target
              host_owns_target Hop Hll)
    as (reply & w2 & Hrun & _ & Hc).
  exists reply, w2. split; [exact Hrun|]. rewrite Hc. apply lookup_insert_eq.
Defined.

Lemma reply_frame_size : (MinimumPacketSize ≤ length reply_frame)%nat.
Proof. vm_compute. lia. Qed.

Lemma reply_frame_op : Op reply_frame = Done ARPReply.
Proof. vm_compute. reflexivity. Qed.

(** X6 on the Reply of the scenario and the two lookups under way. *)
Lemma lookupHandler_reply_notifies_waiters_witness :
  ∃ w', lookupHandler host_stack host_route reply_frame waiting_world
          = Done (false, w') ∧
        wait w' !! 0%nat = None ∧
        wait w' !! 1%nat = Some [10; 0; 0; 9].
Proof.
  destruct (lookupHandler_reply_notifies_waiters host_stack host_route
              reply_frame waiting_world reply_frame_size reply_frame_op)
    as (spa & sha & w' & Hs & _ & Hrun & Hw & _).
  assert (spa = [10; 0; 0; 5]) as -> by (vm_compute in Hs; congruence).
  exists w'. split; [exact Hrun|]. split.
  - rewrite Hw. vm_compute. reflexivity.
  - rewrite Hw. vm_compute. reflexivity.
Defined.

(** X7 on the two lookups under way, visited in the opposite order. *)
Lemma notify_loop_order_irrelevant_witness :
  foldr (notify [10; 0; 0; 5] [0x0a; 0x0b; 0x0c; 0x0d; 0x0e; 0x0f])
    waiting_world (reverse (map_to_list (wait waiting_world)))
  = foldr (notify [10; 0; 0; 5] [0x0a; 0x0b; 0x0c; 0x0d; 0x0e; 0x0f])
      waiting_world (map_to_list (wait waiting_world)).
Proof.
  apply notify_loop_order_irrelevant. apply reverse_Permutation.
Defined.

(** X8 on the Reply of the scenario and the lookup of 10.0.0.5. *)
Lemma reply_reaches_registered_waiter_witness :
  ∃ w' w'',
    lookupHandler host_stack host_route reply_frame waiting_world
      = Done (false, w') ∧
    resolve_leave waiting_call w'
      = (([0x0a; 0x0b; 0x0c; 0x0d; 0x0e; 0x0f], None), w'').
Proof.
  assert (slice ProtocolAddressSender reply_frame = Done [10; 0; 0; 5]) as Hs
    by (vm_compute; reflexivity).
  assert (slice HardwareAddressSender reply_frame
          = Done [0x0a; 0x0b; 0x0c; 0x0d; 0x0e; 0x0f]) as Hh
    by (vm_compute; reflexivity).
  assert (wait waiting_world !! pd_chan waiting_call = Some [10; 0; 0; 5]) as Hreg
    by (vm_compute; reflexivity).
  assert (pd_chan waiting_call ∈ receiving waiting_world) as Hin
    by (apply (bool_decide_unpack _); vm_compute; exact I).
  destruct (reply_reaches_registered_waiter host_stack host_route reply_frame
              waiting_world waiting_call _ _ reply_frame_size reply_frame_op
              Hs Hh Hreg)
    as (w' & Hrun & _ & Hdeliver & _).
  destruct (Hdeliver Hin) as (w'' & Hleave & _).
  exists w', w''. split; assumption.
Defined.

(** X9 on a lookup of 10.0.0.5 that is answered while it waits. *)
Lemma lookup_always_times_out_witness :
  match resolve (lookupHandler host_stack) [(host_route, reply_frame)]
          [10; 0; 0; 5] host_lookup.2 with
  | Done (res, _) => res = ([], Some ErrTimeout)
  | Panic _ => True
  end.
Proof.
  destruct (resolve (lookupHandler host_stack) [(host_route, reply_frame)]
              [10; 0; 0; 5] host_lookup.2) as [[res w']|msg] eqn:Hrun;
    [|exact I].
  assert (wait host_lookup.2 = ∅) as Hw by reflexivity.
  assert (handoff host_lookup.2 !! nextChan host_lookup.2 = None) as Hh
    by reflexivity.
  exact (proj1 (lookup_always_times_out host_stack _ _ _ res w' Hw Hh Hrun)).
Defined.

(** X10 on the Reply of the scenario. *)
Lemma lookupHandler_reply_twice_witness :
  ∃ w1 w2,
    lookupHandler host_stack host_route reply_frame waiting_world
      = Done (false, w1) ∧
    lookupHandler host_stack host_route reply_frame w1 = Done (false, w2) ∧
    wait w2 = wait w1.
Proof.
  destruct (lookupHandler_reply_twice host_stack host_route reply_frame
              waiting_world reply_frame_size reply_frame_op)
    as (w1 & w2 & H1 & H2 & Hw & _).
  exists w1, w2. repeat split; assumption.
Defined.


(** X12 on list 1 of the scenario and packet 30. *)
Lemma insert_then_Remove_restores_witness :
  contains 1 [10; 11; 12]%nat (Remove 1 30 (PushFront 1 30 two_lists)).
Proof.
  assert (30%nat ∉ [10; 11; 12]%nat) as He by (set_unfold; lia).
  exact (proj1 (insert_then_Remove_restores 1 30 [10; 11; 12]%nat two_lists
                  ListProperties.two_lists_contains_1 He)).
Defined.

(** X13 on list 1 of the scenario and packet 11. *)
Lemma Remove_keeps_links_of_removed_witness :
  Next 11 (Remove 1 11 two_lists) = Next 11 two_lists.
Proof.
  exact (proj1 (Remove_keeps_links_of_removed 1 11 [10%nat] [12%nat] two_lists
                  ListProperties.two_lists_contains_1)).
Defined.

(** X15 on list 1 of the scenario. *)
Lemma insert_at_an_end_is_push_witness :
  InsertAfter 1 12 30 two_lists = PushBack 1 30 two_lists.
Proof.
  assert (Back 1 two_lists = Some 12%nat) as Hb by (vm_compute; reflexivity).
  exact (proj1 (insert_at_an_end_is_push 1 30 [10; 11; 12]%nat two_lists
                  ListProperties.two_lists_contains_1) 12%nat Hb).
Defined.

(** X16 on list 1 of the scenario: packet 11 is pushed again. *)
Lemma PushFront_of_member_makes_cycle_witness :
  forward 1 100 (PushFront 1 11 two_lists) = None.
Proof.
  exact (PushFront_of_member_makes_cycle 1 11 [10%nat] [12%nat] two_lists
           ListProperties.two_lists_contains_1 100%nat).
Defined.

End MoreExamples.
